(** * Hedge-fund risk pipeline: a shallow embedding of [analyze_risk.py]

    The pipeline works on pandas tables of [float64] cells.  Cells are
    modelled as extended reals: a finite value carries an exact real number
    (rounding and overflow of binary64 are not modelled, and zero is
    unsigned), while [NaN], [+inf] and [-inf] are explicit and follow the
    IEEE 754 rules that NumPy applies to them.  Tables are lists of rows in
    the order pandas keeps them; Python exceptions are explicit results. *)

From Stdlib Require Import String Ascii.
From Stdlib Require Import Reals Lra Lia List Bool ZArith.
From Stdlib Require Import Permutation Sorted.
From Stdlib Require OrderedTypeEx.
Import ListNotations.

Open Scope R_scope.

(** ** Python exceptions *)

Inductive exn : Type :=
| ValueError
| IndexError
| TypeError
| LinAlgError.

Inductive result (A : Type) : Type :=
| Ok (a : A)
| Raise (e : exn).

Arguments Ok {A} a.
Arguments Raise {A} e.

Definition bind {A B : Type} (m : result A) (k : A -> result B) : result B :=
  match m with
  | Ok a => k a
  | Raise e => Raise e
  end.

Notation "'do' x <- m ;; k" := (bind m (fun x => k))
  (at level 10, x pattern, m at level 100, k at level 200).

(** ** The [float64] model *)

Module F64.

Inductive float64 : Type :=
| Fin (x : R)
| PInf
| NInf
| NaN.

Definition Rltb (x y : R) : bool := if Rlt_dec x y then true else false.
Definition Rleb (x y : R) : bool := if Rle_dec x y then true else false.
Definition Reqb (x y : R) : bool := if Req_dec_T x y then true else false.

Definition isnan (a : float64) : bool :=
  match a with NaN => true | _ => false end.

Definition isfinite (a : float64) : bool :=
  match a with Fin _ => true | _ => false end.

Definition neg (a : float64) : float64 :=
  match a with
  | Fin x => Fin (- x)
  | PInf => NInf
  | NInf => PInf
  | NaN => NaN
  end.

Definition add (a b : float64) : float64 :=
  match a, b with
  | NaN, _ | _, NaN => NaN
  | Fin x, Fin y => Fin (x + y)
  | PInf, NInf | NInf, PInf => NaN
  | PInf, _ | _, PInf => PInf
  | NInf, _ | _, NInf => NInf
  end.

Definition sub (a b : float64) : float64 := add a (neg b).

(** An infinity of the sign of [x]; [0 * inf] is [NaN]. *)
Definition inf_signed (x : R) (pos : float64) : float64 :=
  if Rltb 0 x then pos else if Rltb x 0 then neg pos else NaN.

Definition mul (a b : float64) : float64 :=
  match a, b with
  | NaN, _ | _, NaN => NaN
  | Fin x, Fin y => Fin (x * y)
  | Fin x, PInf | PInf, Fin x => inf_signed x PInf
  | Fin x, NInf | NInf, Fin x => inf_signed x NInf
  | PInf, PInf | NInf, NInf => PInf
  | PInf, NInf | NInf, PInf => NInf
  end.

(** Division by zero does not raise on NumPy scalars and arrays: [0/0] is
    [NaN] and [x/0] an infinity of the sign of [x]. *)
Definition div (a b : float64) : float64 :=
  match a, b with
  | NaN, _ | _, NaN => NaN
  | Fin x, Fin y => if Reqb y 0 then inf_signed x PInf else Fin (x / y)
  | Fin _, PInf | Fin _, NInf => Fin 0
  | PInf, Fin y => if Rltb y 0 then NInf else PInf
  | NInf, Fin y => if Rltb y 0 then PInf else NInf
  | PInf, PInf | PInf, NInf | NInf, PInf | NInf, NInf => NaN
  end.

(** [a < b]; every comparison with [NaN] is false. *)
Definition ltb (a b : float64) : bool :=
  match a, b with
  | NaN, _ | _, NaN => false
  | Fin x, Fin y => Rltb x y
  | NInf, NInf => false
  | NInf, _ => true
  | _, NInf => false
  | PInf, _ => false
  | Fin _, PInf => true
  end.

Definition leb (a b : float64) : bool :=
  match a, b with
  | NaN, _ | _, NaN => false
  | Fin x, Fin y => Rleb x y
  | NInf, _ => true
  | _, NInf => false
  | _, PInf => true
  | PInf, Fin _ => false
  end.

(** [np.log]: [log 0 = -inf], the logarithm of a negative number is [NaN]. *)
Definition log (a : float64) : float64 :=
  match a with
  | Fin x => if Rltb 0 x then Fin (ln x) else if Reqb x 0 then NInf else NaN
  | PInf => PInf
  | NInf => NaN
  | NaN => NaN
  end.

(** [np.exp]. *)
Definition exp (a : float64) : float64 :=
  match a with
  | Fin x => Fin (Rtrigo_def.exp x)
  | PInf => PInf
  | NInf => Fin 0
  | NaN => NaN
  end.

(** [ndarray.sum()] and [ndarray.mean()]: plain IEEE summation. *)
Definition np_sum (l : list float64) : float64 :=
  fold_left add l (Fin 0).

Definition np_mean (l : list float64) : float64 :=
  div (np_sum l) (Fin (INR (length l))).

(** [Series.sum()], whose default [skipna=True] leaves the [NaN] cells out. *)
Definition series_sum (l : list float64) : float64 :=
  np_sum (filter (fun a => negb (isnan a)) l).

End F64.

Import F64.

(** ** Tail Risk Estimator *)

(** Insertion sort, standing for the sort inside [np.quantile]. *)
Fixpoint insert_sorted (a : float64) (l : list float64) : list float64 :=
  match l with
  | [] => [a]
  | b :: l' => if leb a b then a :: l else b :: insert_sorted a l'
  end.

Definition np_sort (l : list float64) : list float64 :=
  fold_right insert_sorted [] l.

(** NumPy's [_lerp a b t]. *)
Definition lerp (a b : float64) (t : R) : float64 :=
  let diff_b_a := sub b a in
  if Rleb (1 / 2) t
  then sub b (mul diff_b_a (Fin (1 - t)))
  else add a (mul diff_b_a (Fin t)).

(** [np.quantile arr q] with the default method ["linear"].  The level is
    checked to lie in [[0, 1]] (a [NaN] level fails the check), an array
    holding a [NaN] has a [NaN] quantile, and the virtual index
    [(n - 1) * q] is split into its floor and the interpolation weight.  A
    virtual index at the last position takes the last value on both sides,
    through NumPy's index [-1], against which the weight is then measured.
    What NumPy does on an empty array depends on its version; here it is the
    [IndexError] of the current releases. *)
Definition np_quantile (arr : list float64) (q : float64) : result float64 :=
  match q with
  | Fin qv =>
      if Rleb 0 qv && Rleb qv 1 then
        match arr with
        | [] => Raise IndexError
        | _ :: _ =>
            if existsb isnan arr then Ok NaN
            else
              let n := length arr in
              let sorted := np_sort arr in
              let virtual_index := INR (n - 1) * qv in
              let above_bounds := Rleb (INR (n - 1)) virtual_index in
              let floor_index := Z.to_nat (Int_part virtual_index) in
              let previous_index :=
                if above_bounds then (n - 1)%nat else floor_index in
              let next_index :=
                if above_bounds then (n - 1)%nat else S floor_index in
              let gamma :=
                if above_bounds then virtual_index + 1
                else virtual_index - INR floor_index in
              Ok (lerp (nth previous_index sorted NaN)
                       (nth next_index sorted NaN) gamma)
        end
      else Raise ValueError
  | _ => Raise ValueError
  end.

(** [compute_var_es returns confidence]. *)
Definition compute_var_es (returns : list float64) (confidence : float64)
  : result (float64 * float64) :=
  let r := returns in
  do var_threshold <- np_quantile r (sub (Fin 1) confidence) ;;
  let var := neg var_threshold in
  let tail_losses := filter (fun x => ltb x var_threshold) r in
  let es :=
    if (0 <? length tail_losses)%nat then neg (np_mean tail_losses) else NaN in
  Ok (var, es).

Definition default_confidence : float64 := Fin (95 / 100).

(** ** Tables *)

Definition date := string.
Definition asset := string.

(** A row of [asset_prices], of the long table of asset returns, of
    [positions], of the portfolio returns, of [factor_returns] and of
    [funds].  A SQL [NULL] in a numeric column is read as [NaN]. *)
Record price_row : Type :=
  { pr_date : date; pr_asset : asset; adj_close : float64 }.

Record return_row : Type :=
  { r_date : date; r_asset : asset; r_return : float64 }.

Record position_row : Type :=
  { pos_fund_id : Z; pos_asset : asset; quantity : float64 }.

Record portfolio_row : Type :=
  { pf_date : date; pf_fund_id : Z; portfolio_return : float64 }.

Record factor_row : Type :=
  { f_date : date;
    mkt_rf : float64; smb : float64; hml : float64;
    rmw : float64; cma : float64; rf : float64 }.

Record fund_row : Type :=
  { fund_id : Z; fund_name : string }.

(** A wide frame: the column labels and, per index label, the cells of that
    row in column order. *)
Record wide_frame : Type :=
  { columns : list asset; rows : list (date * list float64) }.

Definition index (w : wide_frame) : list date := map fst (rows w).

(** *** Sorting helpers *)

Section Ordering.
Context {K : Type} (cmp : K -> K -> comparison).

(** The sorted distinct labels of an axis, as [pivot] and [groupby]
    build them. *)
Fixpoint insert_unique (k : K) (l : list K) : list K :=
  match l with
  | [] => [k]
  | k' :: l' =>
      match cmp k k' with
      | Lt => k :: l
      | Eq => l
      | Gt => k' :: insert_unique k l'
      end
  end.

Definition sorted_unique (l : list K) : list K :=
  fold_right insert_unique [] l.

(** A stable sort of rows by a key. *)
Fixpoint insert_by {A : Type} (key : A -> K) (x : A) (l : list A) : list A :=
  match l with
  | [] => [x]
  | y :: l' =>
      match cmp (key x) (key y) with
      | Gt => y :: insert_by key x l'
      | _ => x :: l
      end
  end.

Definition sort_by {A : Type} (key : A -> K) (l : list A) : list A :=
  fold_right (insert_by key) [] l.
End Ordering.

Definition key_compare (k1 k2 : date * Z) : comparison :=
  match String.compare (fst k1) (fst k2) with
  | Eq => Z.compare (snd k1) (snd k2)
  | c => c
  end.

Definition key_eqb (k1 k2 : date * Z) : bool :=
  String.eqb (fst k1) (fst k2) && Z.eqb (snd k1) (snd k2).

(** ** Return Calculator *)

Definition price_key_eqb (d : date) (a : asset) (p : price_row) : bool :=
  String.eqb (pr_date p) d && String.eqb (pr_asset p) a.

Fixpoint has_duplicate_entries (prices : list price_row) : bool :=
  match prices with
  | [] => false
  | p :: rest =>
      existsb (price_key_eqb (pr_date p) (pr_asset p)) rest
      || has_duplicate_entries rest
  end.

Definition cell (prices : list price_row) (d : date) (a : asset) : float64 :=
  match find (price_key_eqb d a) prices with
  | Some p => adj_close p
  | None => NaN
  end.

(** [prices.pivot(index='date', columns='asset', values='adj_close')]: both
    axes hold their sorted distinct labels, a missing (date, asset) entry is
    [NaN], and a repeated one raises [ValueError]. *)
Definition pivot (prices : list price_row) : result wide_frame :=
  if has_duplicate_entries prices then Raise ValueError
  else
    let idx := sorted_unique String.compare (map pr_date prices) in
    let cols := sorted_unique String.compare (map pr_asset prices) in
    Ok {| columns := cols;
          rows := map (fun d => (d, map (cell prices d) cols)) idx |}.

Definition sort_index (w : wide_frame) : wide_frame :=
  {| columns := columns w; rows := sort_by String.compare fst (rows w) |}.

(** [wide.shift(1)]: every row takes the cells of the row above it in the
    frame, and the first row is all [NaN]. *)
Definition shift1 (w : wide_frame) : wide_frame :=
  {| columns := columns w;
     rows :=
       combine (index w)
               (map (fun _ => NaN) (columns w) :: removelast (map snd (rows w)))
  |}.

Definition map2 {A B C : Type} (f : A -> B -> C) (l1 : list A) (l2 : list B)
  : list C :=
  map (fun ab => f (fst ab) (snd ab)) (combine l1 l2).

(** [wide / other] for two frames with the same labels. *)
Definition frame_div (w1 w2 : wide_frame) : wide_frame :=
  {| columns := columns w1;
     rows := map2 (fun r1 r2 => (fst r1, map2 div (snd r1) (snd r2)))
                  (rows w1) (rows w2) |}.

Definition frame_log (w : wide_frame) : wide_frame :=
  {| columns := columns w;
     rows := map (fun r => (fst r, map log (snd r))) (rows w) |}.

(** [dropna()]: a row with a [NaN] in any column is dropped. *)
Definition dropna (w : wide_frame) : wide_frame :=
  {| columns := columns w;
     rows := filter (fun r => negb (existsb isnan (snd r))) (rows w) |}.

(** [reset_index().melt(id_vars='date', ...)]: the columns one after the
    other, each with the rows in index order. *)
Definition melt (w : wide_frame) : list return_row :=
  flat_map
    (fun ja : nat * asset =>
       map (fun r => {| r_date := fst r;
                        r_asset := snd ja;
                        r_return := nth (fst ja) (snd r) NaN |})
           (rows w))
    (combine (seq 0 (length (columns w))) (columns w)).

Definition compute_asset_returns (prices : list price_row)
  : result (list return_row) :=
  do wide <- pivot prices ;;
  let wide := sort_index wide in
  let returns := dropna (frame_log (frame_div wide (shift1 wide))) in
  let ret_long := melt returns in
  Ok ret_long.

(** ** Portfolio Aggregator *)

(** A row of [merged]: the columns of both sides and [weighted_return]. *)
Record merged_row : Type :=
  { m_date : date; m_asset : asset; m_return : float64;
    m_fund_id : Z; m_quantity : float64; weighted_return : float64 }.

(** [returns.merge(positions, on='asset', how='inner')] followed by the new
    column [weighted_return = return * quantity]: the rows of [returns] in
    their order, each paired with the positions of the same asset. *)
Definition merge_positions (returns : list return_row)
    (positions : list position_row) : list merged_row :=
  flat_map
    (fun r =>
       map (fun p =>
              {| m_date := r_date r; m_asset := r_asset r;
                 m_return := r_return r;
                 m_fund_id := pos_fund_id p; m_quantity := quantity p;
                 weighted_return := mul (r_return r) (quantity p) |})
           (filter (fun p => String.eqb (r_asset r) (pos_asset p)) positions))
    returns.

Definition group_key (m : merged_row) : date * Z := (m_date m, m_fund_id m).

(** The rows of one group of [merged.groupby(['date', 'fund_id'])]. *)
Definition get_group (merged : list merged_row) (k : date * Z)
  : list merged_row :=
  filter (fun m => key_eqb (group_key m) k) merged.

(** The function applied to every group. *)
Definition weighted_average (df : list merged_row) : float64 :=
  div (series_sum (map weighted_return df)) (series_sum (map m_quantity df)).

(** [build_portfolio_returns returns positions].  The groups come out in
    sorted key order.  On an empty join [groupby(...).apply] hands back a
    frame instead of a series, and [reset_index(name=...)] is then a
    [TypeError]. *)
Definition build_portfolio_returns (returns : list return_row)
    (positions : list position_row) : result (list portfolio_row) :=
  let merged := merge_positions returns positions in
  match merged with
  | [] => Raise TypeError
  | _ :: _ =>
      let keys := sorted_unique key_compare (map group_key merged) in
      Ok (map (fun k =>
                 {| pf_date := fst k; pf_fund_id := snd k;
                    portfolio_return := weighted_average (get_group merged k) |})
              keys)
  end.

(** ** Factor Exposure Estimator *)

Definition matrix := list (list float64).
Definition vector := list float64.

Definition dot (u v : vector) : float64 := np_sum (map2 mul u v).

(** [X @ betas]. *)
Definition matvec (X : matrix) (betas : vector) : vector :=
  map (fun row => dot row betas) X.

Definition factor_columns (f : factor_row) : list float64 :=
  [mkt_rf f; smb f; hml f; rmw f; cma f].

(** [np.linalg.lstsq] lives outside the repository: the estimator is
    parameterised by it. *)
Definition solver := matrix -> vector -> result vector.

Definition estimate_factor_exposures (lstsq : solver)
    (portfolio_returns : vector) (factor_df : list factor_row)
  : result (vector * float64) :=
  let X := map factor_columns factor_df in
  let y := portfolio_returns in
  do betas <- lstsq X y ;;
  let fitted := matvec X betas in
  let residuals := map2 sub y fitted in
  let alpha := np_mean residuals in
  Ok (betas, alpha).

(** What NumPy documents for [lstsq] on finite data, over the reals: the
    coefficients minimise the squared Euclidean norm of [y - X b], and of
    all minimisers they have the least norm. *)
Definition Rdot (u v : list R) : R :=
  fold_right Rplus 0 (map2 Rmult u v).

Definition sum_squares (u : list R) : R := Rdot u u.

Definition rss (X : list (list R)) (y b : list R) : R :=
  sum_squares (map2 (fun yi row => yi - Rdot row b) y X).

Definition is_lstsq (X : list (list R)) (y b : list R) : Prop :=
  length b = 5%nat /\
  (forall b', length b' = 5%nat -> rss X y b <= rss X y b') /\
  (forall b', length b' = 5%nat -> rss X y b' = rss X y b ->
              sum_squares b <= sum_squares b').

(** ** Report Renderer *)

(** [Series.cumsum()]: the [NaN] cells count as zero in the running sum
    and are [NaN] again in the result. *)
Fixpoint np_cumsum_from (acc : float64) (l : list float64) : list float64 :=
  match l with
  | [] => []
  | x :: l' => let acc' := add acc x in acc' :: np_cumsum_from acc' l'
  end.

Definition series_cumsum (l : list float64) : list float64 :=
  let vals := map (fun x => if isnan x then Fin 0 else x) l in
  map2 (fun x s => if isnan x then NaN else s) l (np_cumsum_from (Fin 0) vals).

(** What a plotting call draws. *)
Inductive figure : Type :=
| LinePlot (xs : list date) (ys : list float64)
| Histogram (data : list float64) (bins : nat) (axvline : float64)
| BarChart (labels : list string) (heights : list float64).

(** The curve of [plot_cumulative_returns]. *)
Definition plot_cumulative_returns (portfolio_returns : list portfolio_row)
    (fund : Z) : figure :=
  let fund_data := filter (fun p => Z.eqb (pf_fund_id p) fund) portfolio_returns in
  let fund_data := sort_by String.compare pf_date fund_data in
  let cum_returns :=
    map (fun s => sub (exp s) (Fin 1))
        (series_cumsum (map portfolio_return fund_data)) in
  LinePlot (map pf_date fund_data) cum_returns.

Definition plot_return_distribution (returns : list float64) (var : float64)
  : figure :=
  Histogram returns 50 (neg var).

Definition plot_factor_exposures (betas : vector) : figure :=
  BarChart ["Mkt-RF"; "SMB"; "HML"; "RMW"; "CMA"]%string betas.

(** ** Orchestrator *)

Record summary_record : Type :=
  { s_fund_id : Z; s_fund_name : string; s_alpha : float64;
    beta_mkt_rf : float64; beta_smb : float64; beta_hml : float64;
    beta_rmw : float64; beta_cma : float64;
    VaR_95 : float64; ES_95 : float64 }.

(** A line the loop prints on standard output. *)
Inductive message : Type :=
| NoOverlappingDates (fund : Z).

(** The three images of a fund. *)
Inductive image : Type :=
| CumulativeReturnsPng
| ReturnDistributionPng
| FactorExposuresPng.

(** What the loop has written so far. *)
Record run_state : Type :=
  { summary_records : list summary_record;
    stdout : list message;
    saved : list (Z * image * figure) }.

Definition initial_state : run_state :=
  {| summary_records := []; stdout := []; saved := [] |}.

(** [fund_ret.merge(factor_df, on='date', how='inner')]. *)
Definition merge_factors (fund_ret : list portfolio_row)
    (factor_df : list factor_row) : list (portfolio_row * factor_row) :=
  flat_map
    (fun p => map (fun f => (p, f))
                  (filter (fun f => String.eqb (pf_date p) (f_date f)) factor_df))
    fund_ret.

(** [betas[i]]. *)
Definition getitem (v : vector) (i : nat) : result float64 :=
  match nth_error v i with
  | Some a => Ok a
  | None => Raise IndexError
  end.

Definition percent (a : float64) : float64 := div a (Fin 100).

(** The factor columns of [merged] after the conversion to decimals. *)
Definition to_decimal (f : factor_row) : factor_row :=
  {| f_date := f_date f;
     mkt_rf := percent (mkt_rf f); smb := percent (smb f);
     hml := percent (hml f); rmw := percent (rmw f);
     cma := percent (cma f); rf := percent (rf f) |}.

Section Orchestrator.
Variable lstsq : solver.
Variable portfolio_returns : list portfolio_row.
Variable factor_df : list factor_row.

(** One turn of the loop of [main] over the rows of [funds]. *)
Definition process_fund (st : run_state) (fund : fund_row) : result run_state :=
  let fund_ret :=
    filter (fun p => Z.eqb (pf_fund_id p) (fund_id fund)) portfolio_returns in
  let merged := merge_factors fund_ret factor_df in
  match merged with
  | [] =>
      Ok {| summary_records := summary_records st;
            stdout := stdout st ++ [NoOverlappingDates (fund_id fund)];
            saved := saved st |}
  | _ :: _ =>
      let excess_portfolio_return :=
        map (fun pf => sub (portfolio_return (fst pf)) (percent (rf (snd pf))))
            merged in
      let merged_factors := map (fun pf => to_decimal (snd pf)) merged in
      do (betas, alpha) <-
        estimate_factor_exposures lstsq excess_portfolio_return merged_factors ;;
      do (var, es) <-
        compute_var_es (map portfolio_return fund_ret) default_confidence ;;
      do b0 <- getitem betas 0 ;;
      do b1 <- getitem betas 1 ;;
      do b2 <- getitem betas 2 ;;
      do b3 <- getitem betas 3 ;;
      do b4 <- getitem betas 4 ;;
      Ok {| summary_records :=
              summary_records st ++
              [ {| s_fund_id := fund_id fund; s_fund_name := fund_name fund;
                   s_alpha := alpha;
                   beta_mkt_rf := b0; beta_smb := b1; beta_hml := b2;
                   beta_rmw := b3; beta_cma := b4;
                   VaR_95 := var; ES_95 := es |} ];
            stdout := stdout st;
            saved :=
              saved st ++
              [ (fund_id fund, CumulativeReturnsPng,
                 plot_cumulative_returns portfolio_returns (fund_id fund));
                (fund_id fund, ReturnDistributionPng,
                 plot_return_distribution (map portfolio_return fund_ret) var);
                (fund_id fund, FactorExposuresPng,
                 plot_factor_exposures betas) ] |}
  end.

Fixpoint main_loop (funds_df : list fund_row) (st : run_state)
  : result run_state :=
  match funds_df with
  | [] => Ok st
  | fund :: rest =>
      do st' <- process_fund st fund ;;
      main_loop rest st'
  end.

(** The overlap test of the loop, as the specification words it: the fund
    has a portfolio-return date that is a date of the factor table. *)
Definition shares_a_date (fund : Z) : bool :=
  existsb
    (fun p => Z.eqb (pf_fund_id p) fund
              && existsb (fun f => String.eqb (pf_date p) (f_date f)) factor_df)
    portfolio_returns.
End Orchestrator.

(** ** Notions used in the statements *)

(** [below a b]: [a] is [-inf] or a finite value under the real [b]. *)
Definition below (a : float64) (b : R) : Prop :=
  match a with
  | Fin x => x < b
  | NInf => True
  | _ => False
  end.

(** A value that is not [+inf] or [NaN]. *)
Definition bounded_above (a : float64) : Prop :=
  match a with
  | Fin _ | NInf => True
  | _ => False
  end.

(** The empirical quantile of a sorted sample [s] at level [q] by linear
    interpolation: with [h = (n - 1) * q], the value a fraction
    [h - floor h] of the way from [s[floor h]] to its successor. *)
Definition interpolated_quantile (s : list R) (q : R) : R :=
  let h := INR (length s - 1) * q in
  let lo := Z.to_nat (Int_part h) in
  nth lo s 0 + (h - INR lo) * (nth (S lo) s 0 - nth lo s 0).

(** The ten returns of the value-at-risk scenario, and a two-point series. *)
Definition sample_returns : list R :=
  [-5 / 100; -3 / 100; -1 / 100; 1 / 100; 2 / 100;
   3 / 100; 4 / 100; 5 / 100; 6 / 100; 7 / 100].

Definition two_returns : list R := [-1; 1].

(** The number of price rows of an asset, the return rows of an asset, and
    the sorted dates of the whole price table. *)
Definition observations (prices : list price_row) (a : asset) : nat :=
  length (filter (fun p => String.eqb (pr_asset p) a) prices).

Definition returns_of (out : list return_row) (a : asset) : list return_row :=
  filter (fun r => String.eqb (r_asset r) a) out.

Definition table_dates (prices : list price_row) : list date :=
  sorted_unique String.compare (map pr_date prices).

Definition table_assets (prices : list price_row) : list asset :=
  sorted_unique String.compare (map pr_asset prices).

(** [d1] comes immediately before [d2] in the list [l]. *)
Definition consecutive (l : list date) (d1 d2 : date) : Prop :=
  exists i, nth_error l i = Some d1 /\ nth_error l (S i) = Some d2.

Definition date_lt (d1 d2 : date) : Prop := String.compare d1 d2 = Lt.

(** Every asset of the table has a finite positive price on every date of
    the table. *)
Definition complete_positive (prices : list price_row) : Prop :=
  forall d a, In d (map pr_date prices) -> In a (map pr_asset prices) ->
              exists x, cell prices d a = Fin x /\ 0 < x.

Definition log_ratio (x y : float64) : float64 := log (div x y).

(** The log-ratio frame read off the price cells: each date of [dates]
    against the cells [prev] of the row above it. *)
Fixpoint ratio_rows (cellf : date -> asset -> float64) (cols : list asset)
    (prev : asset -> float64) (dates : list date) : list (date * list float64) :=
  match dates with
  | [] => []
  | d :: rest =>
      (d, map (fun a => log_ratio (cellf d a) (prev a)) cols)
      :: ratio_rows cellf cols (cellf d) rest
  end.

(** Price tables of the examples: asset B starts one day after asset A;
    both assets on the same three days. *)
Definition prices_gap : list price_row :=
  [ {| pr_date := "2020-01-01"; pr_asset := "A"; adj_close := Fin 100 |};
    {| pr_date := "2020-01-02"; pr_asset := "A"; adj_close := Fin 110 |};
    {| pr_date := "2020-01-03"; pr_asset := "A"; adj_close := Fin 121 |};
    {| pr_date := "2020-01-02"; pr_asset := "B"; adj_close := Fin 50 |};
    {| pr_date := "2020-01-03"; pr_asset := "B"; adj_close := Fin 55 |} ]%string.

Definition prices_full : list price_row :=
  [ {| pr_date := "2020-01-01"; pr_asset := "A"; adj_close := Fin 100 |};
    {| pr_date := "2020-01-02"; pr_asset := "A"; adj_close := Fin 110 |};
    {| pr_date := "2020-01-03"; pr_asset := "A"; adj_close := Fin 121 |};
    {| pr_date := "2020-01-01"; pr_asset := "B"; adj_close := Fin 40 |};
    {| pr_date := "2020-01-02"; pr_asset := "B"; adj_close := Fin 50 |};
    {| pr_date := "2020-01-03"; pr_asset := "B"; adj_close := Fin 55 |} ]%string.

(** What [compute_asset_returns] returns on [prices_gap]. *)
Definition returns_gap : list return_row :=
  [ {| r_date := "2020-01-03"; r_asset := "A"; r_return := Fin (ln (121 / 110)) |};
    {| r_date := "2020-01-03"; r_asset := "B"; r_return := Fin (ln (55 / 50)) |}
  ]%string.

(** The present holdings of fund [f] on date [d]: the pairs of a return of
    that date and a position of that fund on the same asset. *)
Definition group_members (returns : list return_row)
    (positions : list position_row) (d : date) (f : Z)
  : list (return_row * position_row) :=
  filter (fun rp => String.eqb (r_asset (fst rp)) (pos_asset (snd rp))
                    && String.eqb (r_date (fst rp)) d
                    && Z.eqb (pos_fund_id (snd rp)) f)
         (list_prod returns positions).

(** The sums of [return_i * quantity_i] and of [quantity_i] over them. *)
Definition weighted_sum (g : list (return_row * position_row)) : float64 :=
  series_sum (map (fun rp => mul (r_return (fst rp)) (quantity (snd rp))) g).

Definition quantity_sum (g : list (return_row * position_row)) : float64 :=
  series_sum (map (fun rp => quantity (snd rp)) g).

Definition quantity_weighted_average (returns : list return_row)
    (positions : list position_row) (d : date) (f : Z) : float64 :=
  let g := group_members returns positions d f in
  div (weighted_sum g) (quantity_sum g).

(** The weighting scenario: fund 1 holds 100 of A and 300 of B. *)
Definition returns_two_assets : list return_row :=
  [ {| r_date := "2020-01-02"; r_asset := "A"; r_return := Fin (2 / 100) |};
    {| r_date := "2020-01-02"; r_asset := "B"; r_return := Fin (- (1 / 100)) |}
  ]%string.

Definition positions_two_assets : list position_row :=
  [ {| pos_fund_id := 1; pos_asset := "A"; quantity := Fin 100 |};
    {| pos_fund_id := 1; pos_asset := "B"; quantity := Fin 300 |} ]%string.

(** A long and a short holding of the same size, and a single holding of
    zero quantity. *)
Definition returns_long_short : list return_row :=
  [ {| r_date := "2020-01-02"; r_asset := "A"; r_return := Fin (2 / 100) |};
    {| r_date := "2020-01-02"; r_asset := "B"; r_return := Fin (1 / 100) |}
  ]%string.

Definition positions_long_short : list position_row :=
  [ {| pos_fund_id := 2; pos_asset := "A"; quantity := Fin 100 |};
    {| pos_fund_id := 2; pos_asset := "B"; quantity := Fin (- 100) |} ]%string.

Definition positions_unheld : list position_row :=
  [ {| pos_fund_id := 3; pos_asset := "A"; quantity := Fin 0 |} ]%string.

(** The row of [merged] made of a return and a position. *)
Definition merged_of (rp : return_row * position_row) : merged_row :=
  {| m_date := r_date (fst rp); m_asset := r_asset (fst rp);
     m_return := r_return (fst rp);
     m_fund_id := pos_fund_id (snd rp); m_quantity := quantity (snd rp);
     weighted_return := mul (r_return (fst rp)) (quantity (snd rp)) |}.

(** Running sums and running products of a series of reals. *)
Fixpoint running (op : R -> R -> R) (acc : R) (l : list R) : list R :=
  match l with
  | [] => []
  | x :: l' => let acc' := op acc x in acc' :: running op acc' l'
  end.

(** The curve of the specification: the cumulative product of [1 + r_i],
    minus one. *)
Definition compounded_simple (rs : list R) : list R :=
  map (fun p => p - 1) (running Rmult 1 (map (fun r => 1 + r) rs)).

(** The curve of log returns: the cumulative product of [exp r_i], minus
    one. *)
Definition compounded_log (rs : list R) : list R :=
  map (fun p => p - 1) (running Rmult 1 (map Rtrigo_def.exp rs)).

Definition fund_rows (portfolio_returns : list portfolio_row) (fund : Z)
  : list portfolio_row :=
  filter (fun p => Z.eqb (pf_fund_id p) fund) portfolio_returns.

Definition date_le (p q : portfolio_row) : Prop :=
  String.compare (pf_date p) (pf_date q) <> Gt.

(** One fund with a single return of 0.1. *)
Definition one_return : list portfolio_row :=
  [ {| pf_date := "2020-01-02"; pf_fund_id := 1;
       portfolio_return := Fin (1 / 10) |} ]%string.

(** The regression inputs the loop builds for a fund. *)
Definition fund_merged (portfolio_returns : list portfolio_row)
    (factor_df : list factor_row) (fund : Z) : list (portfolio_row * factor_row) :=
  merge_factors (fund_rows portfolio_returns fund) factor_df.

Definition fund_excess (portfolio_returns : list portfolio_row)
    (factor_df : list factor_row) (fund : Z) : vector :=
  map (fun pf => sub (portfolio_return (fst pf)) (percent (rf (snd pf))))
      (fund_merged portfolio_returns factor_df fund).

Definition fund_design (portfolio_returns : list portfolio_row)
    (factor_df : list factor_row) (fund : Z) : matrix :=
  map factor_columns
      (map (fun pf => to_decimal (snd pf))
           (fund_merged portfolio_returns factor_df fund)).

(** The solver returns five coefficients on the data of every fund of
    [funds_df] that shares a date with the factor table. *)
Definition solver_succeeds (lstsq : solver)
    (portfolio_returns : list portfolio_row) (factor_df : list factor_row)
    (funds_df : list fund_row) : Prop :=
  forall fund, In fund funds_df ->
    shares_a_date portfolio_returns factor_df (fund_id fund) = true ->
    exists betas,
      lstsq (fund_design portfolio_returns factor_df (fund_id fund))
            (fund_excess portfolio_returns factor_df (fund_id fund)) = Ok betas /\
      length betas = 5%nat.

(** Two funds, the second without a date in the factor table, and a solver
    that answers zero. *)
Definition funds_pair : list fund_row :=
  [ {| fund_id := 1; fund_name := "Equity Hedge Fund" |};
    {| fund_id := 2; fund_name := "Long/Short Fund" |} ]%string.

Definition portfolio_pair : list portfolio_row :=
  [ {| pf_date := "2020-01-02"; pf_fund_id := 1; portfolio_return := Fin (1 / 100) |};
    {| pf_date := "2020-01-03"; pf_fund_id := 2; portfolio_return := Fin (2 / 100) |}
  ]%string.

Definition factors_one_day : list factor_row :=
  [ {| f_date := "2020-01-02"; mkt_rf := Fin 1; smb := Fin 0; hml := Fin 0;
       rmw := Fin 0; cma := Fin 0; rf := Fin 0 |} ]%string.

Definition zero_solver : solver :=
  fun _ _ => Ok [Fin 0; Fin 0; Fin 0; Fin 0; Fin 0].

(** The inner product of columns [j] and [k] of a design matrix. *)
Definition col_dot (j k : nat) (X : list (list R)) : R :=
  fold_right Rplus 0 (map (fun row => nth j row 0 * nth k row 0) X).

(** Excess returns that are half the market factor, without noise. *)
Definition half_market (X : list (list R)) : list R :=
  map (fun row => 1 / 2 * nth 0 row 0) X.

Definition half_market_betas : list R := [1 / 2; 0; 0; 0; 0].

(** A factor table whose cells are the finite values of [X]. *)
Definition factor_table_of (factor_df : list factor_row) (X : list (list R))
  : Prop :=
  map factor_columns factor_df = map (map Fin) X.

(** Two days on which the market factor and the size factor are orthogonal. *)
Definition design_two_days : list (list R) :=
  [ [1; 1; 0; 0; 0]; [1; -1; 0; 0; 0] ].

Definition factors_two_days : list factor_row :=
  [ {| f_date := "2020-01-02"; mkt_rf := Fin 1; smb := Fin 1; hml := Fin 0;
       rmw := Fin 0; cma := Fin 0; rf := Fin 0 |};
    {| f_date := "2020-01-03"; mkt_rf := Fin 1; smb := Fin (-1); hml := Fin 0;
       rmw := Fin 0; cma := Fin 0; rf := Fin 0 |} ]%string.

Definition half_market_solver : solver :=
  fun _ _ => Ok (map Fin half_market_betas).

(** The sum of a list of reals, and a group whose returns and quantities
    are the finite values [rq]. *)
Definition Rsum (l : list R) : R := fold_right Rplus 0 l.

Definition finite_group (g : list (return_row * position_row))
    (rq : list (R * R)) : Prop :=
  map (fun rp => (r_return (fst rp), quantity (snd rp))) g
  = map (fun x => (Fin (fst x), Fin (snd x))) rq.

(** ** Further notions used in the statements *)

(** A confidence level that [np.quantile] accepts once turned into the
    level [1 - confidence]. *)
Definition valid_confidence (c : float64) : Prop :=
  exists cv, c = Fin cv /\ 0 <= cv <= 1.

(** Two rows of the price table with the same date and asset. *)
Definition repeated_entry (prices : list price_row) : Prop :=
  exists i j p q,
    (i < j)%nat /\ nth_error prices i = Some p /\ nth_error prices j = Some q /\
    pr_date p = pr_date q /\ pr_asset p = pr_asset q.

(** A price table in which asset B has a single row. *)
Definition prices_short : list price_row :=
  [ {| pr_date := "2020-01-01"; pr_asset := "A"; adj_close := Fin 100 |};
    {| pr_date := "2020-01-02"; pr_asset := "A"; adj_close := Fin 110 |};
    {| pr_date := "2020-01-02"; pr_asset := "B"; adj_close := Fin 50 |} ]%string.

(** The real number in a finite cell. *)
Definition fin_value (a : float64) : R :=
  match a with
  | Fin x => x
  | _ => 0
  end.

(** The log returns along a series of prices that starts at [x0]. *)
Fixpoint log_returns (x0 : R) (xs : list R) : list R :=
  match xs with
  | [] => []
  | x :: xs' => ln (x / x0) :: log_returns x xs'
  end.

(** The price of an asset on a date, as a real number. *)
Definition price_of (prices : list price_row) (a : asset) (d : date) : R :=
  fin_value (cell prices d a).

(** A position with its quantity multiplied by [k]. *)
Definition scale_position (k : R) (p : position_row) : position_row :=
  {| pos_fund_id := pos_fund_id p; pos_asset := pos_asset p;
     quantity := mul (quantity p) (Fin k) |}.

(** The finite returns and quantities of the members of a group. *)
Definition member_values (g : list (return_row * position_row)) : list (R * R) :=
  map (fun rp => (fin_value (r_return (fst rp)), fin_value (quantity (snd rp)))) g.

(** The members of a group that are held: their quantity is not zero. *)
Definition is_zero (q : float64) : bool :=
  match q with
  | Fin x => Reqb x 0
  | _ => false
  end.

Definition held (g : list (return_row * position_row))
  : list (return_row * position_row) :=
  filter (fun rp => negb (is_zero (quantity (snd rp)))) g.

(** Excess returns that are an exact combination [beta0] of the factors. *)
Definition exact_combination (X : list (list R)) (beta0 : list R) : list R :=
  map (fun row => Rdot row beta0) X.

Definition zero_betas : list R := [0; 0; 0; 0; 0].

(** A day on which every factor return is zero. *)
Definition factors_flat : list factor_row :=
  [ {| f_date := "2020-01-02"; mkt_rf := Fin 0; smb := Fin 0; hml := Fin 0;
       rmw := Fin 0; cma := Fin 0; rf := Fin 0 |} ]%string.

(** The images the loop saves for a fund. *)
Definition fund_images (fund : Z) : list (Z * image) :=
  [ (fund, CumulativeReturnsPng); (fund, ReturnDistributionPng);
    (fund, FactorExposuresPng) ].

(** A solver that fails. *)
Definition failing_solver : solver := fun _ _ => Raise LinAlgError.

(** A row whose portfolio return is not missing. *)
Definition known (p : portfolio_row) : bool :=
  negb (isnan (portfolio_return p)).

(** The points of a line plot; Matplotlib draws nothing at a [NaN]. *)
Definition curve_points (f : figure) : list (date * float64) :=
  match f with
  | LinePlot xs ys => combine xs ys
  | _ => []
  end.

Definition drawn (pt : date * float64) : bool := negb (isnan (snd pt)).

(** Three days of a fund, the return of the second one missing. *)
Definition returns_with_gap : list portfolio_row :=
  [ {| pf_date := "2020-01-02"; pf_fund_id := 1; portfolio_return := Fin 0 |};
    {| pf_date := "2020-01-03"; pf_fund_id := 1; portfolio_return := NaN |};
    {| pf_date := "2020-01-06"; pf_fund_id := 1; portfolio_return := Fin 0 |}
  ]%string.

(** The members of a group whose asset return is not missing. *)
Definition with_return (g : list (return_row * position_row))
  : list (return_row * position_row) :=
  filter (fun rp => negb (isnan (r_return (fst rp)))) g.

(** One day on which the return of asset B is missing. *)
Definition returns_one_missing : list return_row :=
  [ {| r_date := "2020-01-02"; r_asset := "A"; r_return := Fin (2 / 100) |};
    {| r_date := "2020-01-02"; r_asset := "B"; r_return := NaN |} ]%string.

(** * Properties *)

(** ** Deciding comparisons of reals *)

Lemma Rltb_true (x y : R) : x < y -> Rltb x y = true.
Proof.
  intros H. unfold Rltb.
  destruct (Rlt_dec x y); [reflexivity | contradiction].
Qed.

Lemma Rltb_false (x y : R) : y <= x -> Rltb x y = false.
Proof. intros H. unfold Rltb. destruct (Rlt_dec x y); [lra | reflexivity]. Qed.

Lemma Rltb_iff (x y : R) : Rltb x y = true <-> x < y.
Proof. unfold Rltb. destruct (Rlt_dec x y); split; auto; discriminate. Qed.

Lemma Rleb_true (x y : R) : x <= y -> Rleb x y = true.
Proof.
  intros H. unfold Rleb.
  destruct (Rle_dec x y); [reflexivity | contradiction].
Qed.

Lemma Rleb_false (x y : R) : y < x -> Rleb x y = false.
Proof. intros H. unfold Rleb. destruct (Rle_dec x y); [lra | reflexivity]. Qed.

Lemma Rleb_iff (x y : R) : Rleb x y = true <-> x <= y.
Proof. unfold Rleb. destruct (Rle_dec x y); split; auto; discriminate. Qed.

Lemma Reqb_true (x y : R) : x = y -> Reqb x y = true.
Proof.
  intros H. unfold Reqb.
  destruct (Req_dec_T x y); [reflexivity | contradiction].
Qed.

Lemma Reqb_false (x y : R) : x <> y -> Reqb x y = false.
Proof.
  intros H. unfold Reqb.
  destruct (Req_dec_T x y); [contradiction | reflexivity].
Qed.

(** Evaluates the comparisons of concrete reals that block a computation. *)
Ltac real_decide :=
  repeat
    match goal with
    | |- context [Rltb ?x ?y] =>
        first [ rewrite (Rltb_true x y) by lra | rewrite (Rltb_false x y) by lra ]
    | |- context [Rleb ?x ?y] =>
        first [ rewrite (Rleb_true x y) by lra | rewrite (Rleb_false x y) by lra ]
    | |- context [Reqb ?x ?y] =>
        first [ rewrite (Reqb_true x y) by lra | rewrite (Reqb_false x y) by lra ]
    end.

(** The floor of a non-negative real, as a natural number. *)
Lemma floor_nat_spec (h : R) :
  0 <= h ->
  INR (Z.to_nat (Int_part h)) <= h < INR (Z.to_nat (Int_part h)) + 1.
Proof.
  intros Hh.
  destruct (base_Int_part h) as [Hle Hgt].
  assert (Hz : (0 <= Int_part h)%Z).
  { destruct (Z_lt_le_dec (Int_part h) 0) as [Hneg | Hpos]; [| exact Hpos].
    assert (IZR (Int_part h) <= -1) by (apply IZR_le; lia). lra. }
  rewrite INR_IZR_INZ, Z2Nat.id by exact Hz. lra.
Qed.

Lemma floor_nat_unique (h : R) (k : nat) :
  INR k <= h < INR k + 1 -> Z.to_nat (Int_part h) = k.
Proof.
  intros [Hlo Hhi].
  assert (Hk : Z.of_nat k = Int_part h).
  { apply Int_part_spec. rewrite <- INR_IZR_INZ. lra. }
  rewrite <- Hk. apply Nat2Z.id.
Qed.

(** ** Facts on the [float64] operations *)

Lemma ltb_irrefl (a : float64) : ltb a a = false.
Proof. destruct a; simpl; auto. apply Rltb_false. lra. Qed.

Lemma ltb_Fin (x y : R) : ltb (Fin x) (Fin y) = true <-> x < y.
Proof. simpl. apply Rltb_iff. Qed.

Lemma leb_Fin (x y : R) : leb (Fin x) (Fin y) = true <-> x <= y.
Proof. simpl. apply Rleb_iff. Qed.

Lemma add_zero_l (a : float64) : add (Fin 0) a = a.
Proof. destruct a; simpl; auto. f_equal. lra. Qed.

Lemma ltb_below (a : float64) (t : R) : ltb a (Fin t) = true -> below a t.
Proof. destruct a; simpl; try discriminate; auto. apply Rltb_iff. Qed.

Lemma below_add (a b : float64) (s t : R) :
  below a s -> below b t -> below (add a b) (s + t).
Proof. destruct a, b; simpl; try tauto. lra. Qed.

Lemma below_fold_add (l : list float64) (t : R) :
  Forall (fun x => below x t) l ->
  forall (acc : float64) (s : R),
    below acc s -> below (fold_left add l acc) (s + INR (length l) * t).
Proof.
  induction 1 as [| x l Hx Hl IH]; intros acc s Hacc.
  - simpl. replace (s + 0 * t) with s by lra. exact Hacc.
  - cbn [fold_left length]. rewrite S_INR.
    replace (s + (INR (length l) + 1) * t) with ((s + t) + INR (length l) * t) by lra.
    apply IH. apply below_add; assumption.
Qed.

Lemma below_np_sum (l : list float64) (t : R) :
  l <> [] -> Forall (fun x => below x t) l ->
  below (np_sum l) (INR (length l) * t).
Proof.
  intros Hne Hall. destruct l as [| x l]; [congruence |].
  unfold np_sum. cbn [fold_left length]. rewrite add_zero_l, S_INR.
  inversion Hall as [| ? ? Hx Hl]; subst.
  replace ((INR (length l) + 1) * t) with (t + INR (length l) * t) by lra.
  apply below_fold_add; assumption.
Qed.

Lemma below_np_mean (l : list float64) (t : R) :
  l <> [] -> Forall (fun x => below x t) l -> below (np_mean l) t.
Proof.
  intros Hne Hall. pose proof (below_np_sum l t Hne Hall) as Hs.
  assert (Hn : 0 < INR (length l)).
  { apply lt_0_INR. destruct l; [congruence | simpl; lia]. }
  unfold np_mean. destruct (np_sum l) as [s | | |]; simpl in *; try tauto.
  - rewrite Reqb_false by lra.
    apply Rmult_lt_reg_r with (INR (length l)); [exact Hn |].
    unfold Rdiv. rewrite Rmult_assoc, Rinv_l by lra. lra.
  - rewrite Rltb_false by lra. exact I.
Qed.

Lemma bounded_above_fold_add (l : list float64) :
  Forall bounded_above l ->
  forall acc, bounded_above acc -> bounded_above (fold_left add l acc).
Proof.
  induction 1 as [| x l Hx Hl IH]; intros acc Hacc; simpl; [exact Hacc |].
  apply IH. destruct acc, x; simpl in *; tauto.
Qed.

Lemma bounded_above_np_mean (l : list float64) :
  l <> [] -> Forall bounded_above l -> bounded_above (np_mean l).
Proof.
  intros Hne Hall.
  assert (Hn : 0 < INR (length l)).
  { apply lt_0_INR. destruct l; [congruence | simpl; lia]. }
  assert (Hs : bounded_above (np_sum l)).
  { apply bounded_above_fold_add; simpl; auto. }
  unfold np_mean. destruct (np_sum l) as [s | | |]; simpl in *; try tauto.
  - rewrite Reqb_false by lra. exact I.
  - rewrite Rltb_false by lra. exact I.
Qed.

Lemma ltb_bounded_above (a thr : float64) : ltb a thr = true -> bounded_above a.
Proof. destruct a, thr; simpl; try discriminate; auto. Qed.

(** ** Tail Risk Estimator *)

Lemma np_quantile_ok (r : list float64) (q : R) :
  r <> [] -> 0 <= q <= 1 -> exists thr, np_quantile r (Fin q) = Ok thr.
Proof.
  intros Hne [Hq0 Hq1]. unfold np_quantile.
  rewrite (Rleb_true 0 q), (Rleb_true q 1) by assumption. simpl.
  destruct r as [| x r]; [congruence |].
  destruct (existsb isnan (x :: r)); eexists; reflexivity.
Qed.

Lemma compute_var_es_unfold (r : list float64) (c thr : float64) :
  np_quantile r (sub (Fin 1) c) = Ok thr ->
  compute_var_es r c =
    Ok (neg thr,
        match filter (fun x => ltb x thr) r with
        | [] => NaN
        | tail => neg (np_mean tail)
        end).
Proof.
  intros Hq. unfold compute_var_es. rewrite Hq. simpl.
  destruct (filter (fun x => ltb x thr) r); reflexivity.
Qed.

Lemma compute_var_es_inv (r : list float64) (c var es : float64) :
  compute_var_es r c = Ok (var, es) ->
  exists thr,
    np_quantile r (sub (Fin 1) c) = Ok thr /\ var = neg thr /\
    es = match filter (fun x => ltb x thr) r with
         | [] => NaN
         | tail => neg (np_mean tail)
         end.
Proof.
  intros H. destruct (np_quantile r (sub (Fin 1) c)) as [thr | e] eqn:Hq.
  - rewrite (compute_var_es_unfold r c thr Hq) in H. inversion H; subst.
    exists thr. auto.
  - unfold compute_var_es in H. rewrite Hq in H. discriminate.
Qed.

Lemma tail_bounded_above (r : list float64) (thr : float64) :
  Forall bounded_above (filter (fun x => ltb x thr) r).
Proof.
  apply Forall_forall. intros x Hx. apply filter_In in Hx as [_ Hx].
  exact (ltb_bounded_above x thr Hx).
Qed.

Lemma neg_bounded_above_not_nan (a : float64) : bounded_above a -> neg a <> NaN.
Proof. destruct a; simpl; intros H; try tauto; discriminate. Qed.



(** *** The sort inside the quantile *)

Lemma insert_sorted_Fin (x : R) (s : list R) :
  Sorted Rle s ->
  exists s', insert_sorted (Fin x) (map Fin s) = map Fin s' /\
             Sorted Rle s' /\ Permutation s' (x :: s) /\
             (forall y, HdRel Rle y s -> y <= x -> HdRel Rle y s').
Proof.
  induction s as [| b s IH]; intros Hs.
  - exists [x]. simpl. repeat split; auto.
  - inversion Hs as [| ? ? Hs' Hhd]; subst.
    cbn [map insert_sorted leb].
    destruct (Rle_dec x b) as [Hle | Hgt].
    + rewrite Rleb_true by exact Hle. exists (x :: b :: s).
      repeat split; auto.
    + rewrite Rleb_false by lra.
      destruct (IH Hs') as (s' & Heq & Hsorted & Hperm & Hhd').
      exists (b :: s'). rewrite Heq. repeat split.
      * constructor; [exact Hsorted |]. apply Hhd'; [exact Hhd | lra].
      * rewrite perm_swap. constructor. exact Hperm.
      * intros y Hy _. inversion Hy; subst. constructor. assumption.
Qed.

Lemma np_sort_Fin (rs : list R) :
  exists s, np_sort (map Fin rs) = map Fin s /\ Sorted Rle s /\ Permutation s rs.
Proof.
  induction rs as [| x rs (s & Heq & Hs & Hp)].
  - exists []. simpl. auto.
  - unfold np_sort in *. cbn [map fold_right]. rewrite Heq.
    destruct (insert_sorted_Fin x s Hs) as (s' & Heq' & Hs' & Hp' & _).
    exists s'. repeat split; auto.
    rewrite Hp'. constructor. exact Hp.
Qed.

Lemma sorted_permutation_unique (s1 s2 : list R) :
  Sorted Rle s1 -> Sorted Rle s2 -> Permutation s1 s2 -> s1 = s2.
Proof.
  revert s2. induction s1 as [| a s1 IH]; intros s2 H1 H2 Hp.
  - apply Permutation_nil in Hp. auto.
  - destruct s2 as [| b s2].
    { symmetry in Hp. apply Permutation_nil in Hp. discriminate. }
    assert (T : Relations_1.Transitive Rle) by (intros x y z; apply Rle_trans).
    pose proof (Sorted_StronglySorted T H1) as S1.
    pose proof (Sorted_StronglySorted T H2) as S2.
    inversion S1 as [| ? ? S1' F1]; subst. inversion S2 as [| ? ? S2' F2]; subst.
    rewrite Forall_forall in F1, F2.
    assert (Hab : a = b).
    { assert (Hb : In b (a :: s1)).
      { apply Permutation_in with (b :: s2); [symmetry; exact Hp | left; auto]. }
      assert (Ha : In a (b :: s2)).
      { apply Permutation_in with (a :: s1); [exact Hp | left; auto]. }
      destruct Hb as [Hb | Hb]; [auto |]. destruct Ha as [Ha | Ha]; [auto |].
      apply Rle_antisym; auto. }
    subst b. f_equal. apply IH.
    + inversion H1; assumption.
    + inversion H2; assumption.
    + apply Permutation_cons_inv with a. exact Hp.
Qed.

Lemma existsb_isnan_Fin (rs : list R) : existsb isnan (map Fin rs) = false.
Proof. induction rs; simpl; auto. Qed.

Lemma nth_map_Fin (i : nat) (s : list R) :
  (i < length s)%nat -> nth i (map Fin s) NaN = Fin (nth i s 0).
Proof.
  intros Hi. rewrite (nth_indep _ NaN (Fin 0)) by (rewrite length_map; exact Hi).
  apply map_nth.
Qed.

Lemma lerp_Fin (a b t : R) : lerp (Fin a) (Fin b) t = Fin (a + t * (b - a)).
Proof.
  unfold lerp. destruct (Rleb (1 / 2) t); simpl; f_equal; ring.
Qed.

Lemma np_quantile_nonempty (arr : list float64) (q : R) :
  arr <> [] -> 0 <= q <= 1 ->
  np_quantile arr (Fin q) =
    if existsb isnan arr then Ok NaN
    else
      let n := length arr in
      let sorted := np_sort arr in
      let virtual_index := INR (n - 1) * q in
      let above_bounds := Rleb (INR (n - 1)) virtual_index in
      let floor_index := Z.to_nat (Int_part virtual_index) in
      let previous_index := if above_bounds then (n - 1)%nat else floor_index in
      let next_index := if above_bounds then (n - 1)%nat else S floor_index in
      let gamma :=
        if above_bounds then virtual_index + 1
        else virtual_index - INR floor_index in
      Ok (lerp (nth previous_index sorted NaN) (nth next_index sorted NaN) gamma).
Proof.
  intros Hne [Hq0 Hq1]. unfold np_quantile.
  rewrite (Rleb_true 0 q), (Rleb_true q 1) by assumption. cbn [andb].
  destruct arr; [congruence | reflexivity].
Qed.

(** On a finite sample NumPy's quantile is the interpolation formula on
    the sorted sample. *)
Lemma np_quantile_finite (rs s : list R) (q : R) :
  rs <> [] -> 0 <= q <= 1 -> Sorted Rle s -> Permutation s rs ->
  np_quantile (map Fin rs) (Fin q) = Ok (Fin (interpolated_quantile s q)).
Proof.
  intros Hne [Hq0 Hq1] Hs Hp.
  destruct (np_sort_Fin rs) as (s' & Hsort & Hs' & Hp').
  assert (s' = s).
  { apply sorted_permutation_unique; auto. rewrite Hp'. symmetry. exact Hp. }
  subst s'.
  assert (Hlen : length rs = length s) by (symmetry; apply Permutation_length, Hp).
  rewrite np_quantile_nonempty;
    [| destruct rs; [congruence | discriminate] | split; assumption].
  rewrite existsb_isnan_Fin. cbv zeta. rewrite Hsort, length_map, Hlen.
  unfold interpolated_quantile.
  set (n := length s) in *.
  assert (Hn : (1 <= n)%nat).
  { destruct rs; [congruence |]. simpl in Hlen. lia. }
  set (h := INR (n - 1) * q).
  assert (Hh : 0 <= h <= INR (n - 1)).
  { pose proof (pos_INR (n - 1)). unfold h. split; nra. }
  pose proof (floor_nat_spec h (proj1 Hh)) as Hfl.
  set (lo := Z.to_nat (Int_part h)) in *.
  assert (Hlo : (lo <= n - 1)%nat) by (apply INR_le; lra).
  f_equal.
  destruct (Rle_dec (INR (n - 1)) h) as [Habove | Hbelow].
  - rewrite Rleb_true by exact Habove.
    assert (Hlast : lo = (n - 1)%nat).
    { apply floor_nat_unique. lra. }
    assert (Hg : h - INR lo = 0) by (rewrite Hlast; lra).
    rewrite nth_map_Fin by (unfold n in *; lia).
    rewrite lerp_Fin, Hg, Hlast. f_equal. ring.
  - rewrite Rleb_false by lra.
    assert (Hlt : (lo < n - 1)%nat) by (apply INR_lt; lra).
    rewrite !nth_map_Fin by (unfold n in *; lia).
    rewrite lerp_Fin. reflexivity.
Qed.

(** C3: on a non-empty series of finite returns and a confidence level
    [c] in [[0, 1]], the value at risk returned by [compute_var_es] is the
    negative of the quantile at level [1 - c] obtained by linear
    interpolation on the sorted sample, for whichever sorted arrangement [s]
    of the sample. *)
Theorem compute_var_es_value_at_risk :
  forall (rs s : list R) (cv : R),
    rs <> [] -> 0 <= cv <= 1 ->
    Sorted Rle s -> Permutation s rs ->
    exists es,
      compute_var_es (map Fin rs) (Fin cv)
      = Ok (Fin (- interpolated_quantile s (1 - cv)), es).
Proof.
  intros rs s cv Hne Hcv Hs Hp.
  assert (Hq : np_quantile (map Fin rs) (sub (Fin 1) (Fin cv))
               = Ok (Fin (interpolated_quantile s (1 - cv)))).
  { change (sub (Fin 1) (Fin cv)) with (Fin (1 + - cv)).
    replace (1 + - cv) with (1 - cv) by ring.
    apply np_quantile_finite; auto. lra. }
  eexists. rewrite (compute_var_es_unfold _ _ _ Hq). reflexivity.
Qed.

Lemma interpolated_quantile_at (s : list R) (q : R) (k : nat) :
  INR k <= INR (length s - 1) * q < INR k + 1 ->
  interpolated_quantile s q
  = nth k s 0 + (INR (length s - 1) * q - INR k) * (nth (S k) s 0 - nth k s 0).
Proof.
  intros Hk. unfold interpolated_quantile.
  rewrite (floor_nat_unique _ k Hk). reflexivity.
Qed.

Lemma sample_returns_sorted : Sorted Rle sample_returns.
Proof. unfold sample_returns. repeat constructor; lra. Qed.

Lemma sample_returns_quantile :
  interpolated_quantile sample_returns (1 - 95 / 100) = - (41 / 1000).
Proof.
  rewrite (interpolated_quantile_at _ _ 0%nat); simpl; lra.
Qed.

(** The scenario of C3: on the ten-point series at 95% confidence the
    value at risk is 0.041, the negated interpolated 5th percentile. *)
Lemma compute_var_es_value_at_risk_witness :
  exists es,
    compute_var_es (map Fin sample_returns) default_confidence
    = Ok (Fin (41 / 1000), es).
Proof.
  destruct (compute_var_es_value_at_risk sample_returns sample_returns (95 / 100))
    as [es Hes].
  - discriminate.
  - lra.
  - exact sample_returns_sorted.
  - apply Permutation_refl.
  - exists es. unfold default_confidence. rewrite Hes, sample_returns_quantile.
    do 3 f_equal. lra.
Defined.


Lemma two_returns_var_es :
  compute_var_es (map Fin two_returns) (Fin (1 / 2)) = Ok (Fin 0, Fin 1).
Proof.
  assert (Hq : np_quantile (map Fin two_returns) (sub (Fin 1) (Fin (1 / 2)))
               = Ok (Fin 0)).
  { change (sub (Fin 1) (Fin (1 / 2))) with (Fin (1 + - (1 / 2))).
    rewrite (np_quantile_finite two_returns two_returns).
    - rewrite (interpolated_quantile_at _ _ 0%nat); simpl; try lra.
      do 2 f_equal. lra.
    - discriminate.
    - lra.
    - unfold two_returns. repeat constructor. lra.
    - apply Permutation_refl. }
  rewrite (compute_var_es_unfold _ _ _ Hq). simpl. real_decide.
  unfold np_mean, np_sum. simpl. real_decide.
  simpl. f_equal. f_equal; f_equal; lra.
Qed.


(** ** Sorted axes *)

Section OrderingFacts.
Context {K : Type} (cmp : K -> K -> comparison).
Hypothesis cmp_eq : forall a b, cmp a b = Eq <-> a = b.
Hypothesis cmp_antisym : forall a b, cmp a b = CompOpp (cmp b a).
Hypothesis cmp_trans : forall a b c, cmp a b = Lt -> cmp b c = Lt -> cmp a c = Lt.

Let lt (a b : K) : Prop := cmp a b = Lt.

Lemma cmp_gt_lt (a b : K) : cmp a b = Gt -> lt b a.
Proof.
  unfold lt. intros H. rewrite cmp_antisym, H. reflexivity.
Qed.

Lemma cmp_irrefl (a : K) : ~ lt a a.
Proof.
  unfold lt. intros H. rewrite (proj2 (cmp_eq a a) eq_refl) in H. discriminate.
Qed.

Lemma insert_unique_In (k x : K) (l : list K) :
  In x (insert_unique cmp k l) <-> x = k \/ In x l.
Proof.
  induction l as [| k' l IH]; simpl.
  - intuition.
  - destruct (cmp k k') eqn:Hc; simpl.
    + apply cmp_eq in Hc. subst k'. intuition.
    + intuition.
    + rewrite IH. intuition.
Qed.

Lemma sorted_unique_In (x : K) (l : list K) :
  In x (sorted_unique cmp l) <-> In x l.
Proof.
  induction l as [| k l IH]; simpl; [tauto |].
  unfold sorted_unique in *. simpl. rewrite insert_unique_In, IH. intuition.
Qed.

Lemma insert_unique_sorted (k : K) (l : list K) :
  Sorted lt l ->
  Sorted lt (insert_unique cmp k l) /\
  (forall y, HdRel lt y l -> lt y k -> HdRel lt y (insert_unique cmp k l)).
Proof.
  induction l as [| k' l IH]; intros Hs; simpl.
  - split; [repeat constructor | intros; constructor; assumption].
  - inversion Hs as [| ? ? Hs' Hhd]; subst.
    destruct (cmp k k') eqn:Hc.
    + split; [exact Hs | intros; assumption].
    + split; [| intros; constructor; assumption].
      constructor; [exact Hs | constructor; exact Hc].
    + destruct (IH Hs') as [IH1 IH2]. split.
      * constructor; [exact IH1 |]. apply IH2; [exact Hhd |].
        apply cmp_gt_lt, Hc.
      * intros y Hy _. inversion Hy; subst. constructor. assumption.
Qed.

Lemma sorted_unique_sorted (l : list K) : Sorted lt (sorted_unique cmp l).
Proof.
  induction l as [| k l IH]; [constructor |].
  unfold sorted_unique in *. simpl. apply insert_unique_sorted, IH.
Qed.

Lemma sorted_NoDup (l : list K) : Sorted lt l -> NoDup l.
Proof.
  intros Hs.
  assert (T : Relations_1.Transitive lt) by (intros a b c; apply cmp_trans).
  apply (Sorted_StronglySorted T) in Hs.
  induction Hs as [| a l Hs IH Hall]; constructor; [| exact IH].
  intros Hin. rewrite Forall_forall in Hall.
  exact (cmp_irrefl a (Hall a Hin)).
Qed.

Lemma sorted_unique_NoDup (l : list K) : NoDup (sorted_unique cmp l).
Proof. apply sorted_NoDup, sorted_unique_sorted. Qed.

(** Sorting rows whose keys are already in increasing order changes nothing. *)
Lemma sort_by_sorted {A : Type} (key : A -> K) (l : list A) :
  Sorted lt (map key l) -> sort_by cmp key l = l.
Proof.
  induction l as [| x l IH]; intros Hs; [reflexivity |].
  simpl in Hs. inversion Hs as [| ? ? Hs' Hhd]; subst.
  unfold sort_by in *. simpl. rewrite (IH Hs').
  destruct l as [| y l]; [reflexivity |].
  simpl in Hhd. inversion Hhd as [| ? ? Hlt]; subst.
  simpl. unfold lt in Hlt. rewrite Hlt. reflexivity.
Qed.
End OrderingFacts.

Lemma string_compare_eq (a b : string) : String.compare a b = Eq <-> a = b.
Proof. exact (OrderedTypeEx.String_as_OT.cmp_eq a b). Qed.

Lemma string_compare_trans (a b c : string) :
  String.compare a b = Lt -> String.compare b c = Lt -> String.compare a c = Lt.
Proof.
  intros H1 H2.
  apply OrderedTypeEx.String_as_OT.cmp_lt.
  apply OrderedTypeEx.String_as_OT.lt_trans with b;
    apply OrderedTypeEx.String_as_OT.cmp_lt; assumption.
Qed.

Lemma key_compare_eq (a b : date * Z) : key_compare a b = Eq <-> a = b.
Proof.
  destruct a as [d1 f1], b as [d2 f2]. unfold key_compare. simpl.
  destruct (String.compare d1 d2) eqn:Hd.
  - apply string_compare_eq in Hd. subst d2. rewrite Z.compare_eq_iff.
    split; [congruence | intros H; inversion H; reflexivity].
  - split; [discriminate |]. intros H. inversion H; subst.
    rewrite (proj2 (string_compare_eq d2 d2) eq_refl) in Hd. discriminate.
  - split; [discriminate |]. intros H. inversion H; subst.
    rewrite (proj2 (string_compare_eq d2 d2) eq_refl) in Hd. discriminate.
Qed.

Lemma key_compare_antisym (a b : date * Z) :
  key_compare a b = CompOpp (key_compare b a).
Proof.
  destruct a as [d1 f1], b as [d2 f2]. unfold key_compare. simpl.
  rewrite (String.compare_antisym d1 d2).
  destruct (String.compare d2 d1); simpl; auto.
  apply Z.compare_antisym.
Qed.

Lemma key_compare_trans (a b c : date * Z) :
  key_compare a b = Lt -> key_compare b c = Lt -> key_compare a c = Lt.
Proof.
  destruct a as [d1 f1], b as [d2 f2], c as [d3 f3]. unfold key_compare. simpl.
  destruct (String.compare d1 d2) eqn:H12; try discriminate;
    destruct (String.compare d2 d3) eqn:H23; try discriminate; intros Ha Hb.
  - apply string_compare_eq in H12, H23. subst.
    rewrite (proj2 (string_compare_eq d3 d3) eq_refl).
    rewrite Z.compare_lt_iff in *. lia.
  - apply string_compare_eq in H12. subst. rewrite H23. reflexivity.
  - apply string_compare_eq in H23. subst. rewrite H12. reflexivity.
  - rewrite (string_compare_trans d1 d2 d3 H12 H23). reflexivity.
Qed.

Lemma key_eqb_eq (a b : date * Z) : key_eqb a b = true <-> a = b.
Proof.
  destruct a as [d1 f1], b as [d2 f2]. unfold key_eqb. simpl.
  rewrite andb_true_iff, String.eqb_eq, Z.eqb_eq.
  split; [intros []; congruence | intros H; inversion H; auto].
Qed.

(** ** Return Calculator *)

Lemma map2_cons {A B C : Type} (f : A -> B -> C) a b l1 l2 :
  map2 f (a :: l1) (b :: l2) = f a b :: map2 f l1 l2.
Proof. reflexivity. Qed.

Lemma map2_map_same {A B C D : Type} (f : B -> C -> D) (g : A -> B) (h : A -> C)
    (l : list A) :
  map2 f (map g l) (map h l) = map (fun a => f (g a) (h a)) l.
Proof.
  unfold map2. induction l as [| a l IH]; simpl; [reflexivity |].
  f_equal. exact IH.
Qed.

Lemma shifted_log_ratio (rows : list (date * list float64)) :
  forall prev,
    map (fun r => (fst r, map log (snd r)))
        (map2 (fun r1 r2 : date * list float64 =>
                 (fst r1, map2 div (snd r1) (snd r2)))
              rows
              (combine (map fst rows) (prev :: removelast (map snd rows))))
    = (fix go (prev : list float64) (rows : list (date * list float64)) :=
         match rows with
         | [] => []
         | r :: rest =>
             (fst r, map2 log_ratio (snd r) prev) :: go (snd r) rest
         end) prev rows.
Proof.
  induction rows as [| r rest IH]; intros prev; [reflexivity |].
  cbn [map combine]. rewrite map2_cons. cbn [map fst snd]. f_equal.
  - f_equal. unfold map2. rewrite map_map. reflexivity.
  - destruct rest as [| r' rest']; [reflexivity |].
    change (removelast (snd r :: map snd (r' :: rest')))
      with (snd r :: removelast (map snd (r' :: rest'))).
    apply IH.
Qed.

(** The frame [np.log(wide / wide.shift(1))] of a pivoted table, read off
    the price cells. *)
Lemma pivot_log_ratio (cellf : date -> asset -> float64) (cols : list asset)
    (dates : list date) :
  let w := {| columns := cols;
              rows := map (fun d => (d, map (cellf d) cols)) dates |} in
  rows (frame_log (frame_div w (shift1 w)))
  = ratio_rows cellf cols (fun _ => NaN) dates.
Proof.
  cbv zeta. unfold frame_log, frame_div, shift1, index. cbn [rows columns].
  rewrite shifted_log_ratio.
  change (map (fun _ : asset => NaN) cols)
    with (map ((fun _ => NaN) : asset -> float64) cols).
  generalize ((fun _ => NaN) : asset -> float64) as prev.
  induction dates as [| d rest IH]; intros prev; [reflexivity |].
  cbn [map ratio_rows fst snd]. f_equal.
  - f_equal. apply map2_map_same.
  - apply IH.
Qed.

Lemma pivot_sorted_index (prices : list price_row) (w : wide_frame) :
  pivot prices = Ok w -> sort_index w = w.
Proof.
  unfold pivot. destruct (has_duplicate_entries prices); [discriminate |].
  intros H. inversion H; subst. clear H. unfold sort_index. cbn [columns rows].
  f_equal. apply sort_by_sorted. rewrite map_map. cbn [fst]. rewrite map_id.
  apply sorted_unique_sorted, String.compare_antisym.
Qed.

(** What [compute_asset_returns] returns on a table without repeated
    (date, asset) entries. *)
Lemma compute_asset_returns_eq (prices : list price_row) :
  has_duplicate_entries prices = false ->
  compute_asset_returns prices
  = Ok (melt {| columns := table_assets prices;
                rows := filter (fun r => negb (existsb isnan (snd r)))
                               (ratio_rows (cell prices) (table_assets prices)
                                           (fun _ => NaN) (table_dates prices)) |}).
Proof.
  intros Hdup. unfold compute_asset_returns.
  assert (Hp : pivot prices
               = Ok {| columns := table_assets prices;
                       rows :=
                         map (fun d => (d, map (cell prices d) (table_assets prices)))
                             (table_dates prices) |}).
  { unfold pivot. rewrite Hdup. reflexivity. }
  rewrite Hp. cbn [bind]. rewrite (pivot_sorted_index _ _ Hp).
  unfold dropna. rewrite pivot_log_ratio. reflexivity.
Qed.

Lemma compute_asset_returns_raises (prices : list price_row) :
  has_duplicate_entries prices = true ->
  compute_asset_returns prices = Raise ValueError.
Proof.
  intros Hdup. unfold compute_asset_returns, pivot. rewrite Hdup. reflexivity.
Qed.

Lemma in_combine_seq {A : Type} (l : list A) (s j : nat) (a : A) :
  In (j, a) (combine (seq s (length l)) l) <->
  (s <= j)%nat /\ nth_error l (j - s) = Some a.
Proof.
  revert s. induction l as [| x l IH]; intros s; simpl.
  - split; [tauto |]. intros [_ H]. destruct (j - s)%nat; discriminate.
  - rewrite IH. split.
    + intros [H | [Hle Hn]].
      * inversion H; subst. rewrite Nat.sub_diag. auto.
      * split; [lia |]. replace (j - s)%nat with (S (j - S s)) by lia. exact Hn.
    + intros [Hle Hn]. destruct (Nat.eq_dec s j) as [-> | Hne].
      * rewrite Nat.sub_diag in Hn. inversion Hn. auto.
      * right. split; [lia |].
        replace (j - s)%nat with (S (j - S s)) in Hn by lia. exact Hn.
Qed.

Lemma melt_In (w : wide_frame) (r : return_row) :
  In r (melt w) <->
  exists j a row,
    nth_error (columns w) j = Some a /\ In row (rows w) /\
    r = {| r_date := fst row; r_asset := a; r_return := nth j (snd row) NaN |}.
Proof.
  unfold melt. rewrite in_flat_map. split.
  - intros ([j a] & Hja & Hr). apply in_combine_seq in Hja as [_ Hn].
    rewrite Nat.sub_0_r in Hn. apply in_map_iff in Hr as (row & <- & Hrow).
    exists j, a, row. auto.
  - intros (j & a & row & Hn & Hrow & ->). exists (j, a). split.
    + apply in_combine_seq. rewrite Nat.sub_0_r. split; [lia | exact Hn].
    + apply in_map_iff. exists row. auto.
Qed.

Lemma melt_dates_of (w : wide_frame) (a : asset) (d : date) :
  In d (map r_date (returns_of (melt w) a)) <->
  In a (columns w) /\ In d (map fst (rows w)).
Proof.
  unfold returns_of. rewrite in_map_iff. split.
  - intros (r & <- & Hr). apply filter_In in Hr as [Hr Ha].
    apply String.eqb_eq in Ha.
    apply melt_In in Hr as (j & a' & row & Hn & Hrow & ->). simpl in *. subst a'.
    split; [eapply nth_error_In; eauto | apply in_map; exact Hrow].
  - intros [Ha Hd]. apply In_nth_error in Ha as [j Hj].
    apply in_map_iff in Hd as (row & <- & Hrow).
    exists {| r_date := fst row; r_asset := a; r_return := nth j (snd row) NaN |}.
    split; [reflexivity |]. apply filter_In. split.
    + apply melt_In. exists j, a, row. auto.
    + simpl. apply String.eqb_refl.
Qed.

Lemma melt_assets (w : wide_frame) (a : asset) :
  In a (map r_asset (melt w)) -> In a (columns w).
Proof.
  intros H. apply in_map_iff in H as (r & <- & Hr).
  apply melt_In in Hr as (j & a' & row & Hn & _ & ->). simpl.
  eapply nth_error_In; eauto.
Qed.

Lemma log_ratio_not_nan (x y : float64) :
  isnan (log_ratio x y) = false -> x <> NaN /\ y <> NaN.
Proof.
  unfold log_ratio. destruct x, y; simpl; intros H; try discriminate;
    split; discriminate.
Qed.

Lemma existsb_isnan_false (l : list float64) :
  existsb isnan l = false <-> Forall (fun x => x <> NaN) l.
Proof.
  induction l as [| x l IH]; simpl.
  - split; auto.
  - rewrite orb_false_iff, IH. split.
    + intros [Hx Hl]. constructor; [destruct x; discriminate | exact Hl].
    + intros H. inversion H as [| ? ? Hx Hl]; subst. cbv beta in Hx.
      split; [destruct x; simpl; congruence | assumption].
Qed.

(** A row of the log-ratio frame sits at the head of the table, against
    the cells [prev], or immediately after another date of the table. *)
Lemma ratio_rows_In (cellf : date -> asset -> float64) (cols : list asset)
    (dates : list date) (d : date) (vals : list float64) :
  forall prev,
    In (d, vals) (ratio_rows cellf cols prev dates) ->
    (hd_error dates = Some d /\
     vals = map (fun a => log_ratio (cellf d a) (prev a)) cols) \/
    (exists d', consecutive dates d' d /\
                vals = map (fun a => log_ratio (cellf d a) (cellf d' a)) cols).
Proof.
  induction dates as [| d0 rest IH]; intros prev Hin; [contradiction |].
  cbn [ratio_rows] in Hin. destruct Hin as [Heq | Hin].
  - inversion Heq; subst. left. auto.
  - right. destruct (IH _ Hin) as [[Hhd Hv] | (d' & (i & Hi & HSi) & Hv)].
    + exists d0. split; [| exact Hv]. exists 0%nat. simpl.
      destruct rest; [discriminate | simpl in Hhd; inversion Hhd; subst; auto].
    + exists d'. split; [| exact Hv]. exists (S i). simpl. auto.
Qed.

Lemma no_nan_ratio_row (cellf : date -> asset -> float64) (cols : list asset)
    (d : date) (prev : asset -> float64) :
  existsb isnan (map (fun a => log_ratio (cellf d a) (prev a)) cols) = false ->
  forall a, In a cols -> cellf d a <> NaN /\ prev a <> NaN.
Proof.
  intros H a Ha. apply existsb_isnan_false in H. rewrite Forall_forall in H.
  apply log_ratio_not_nan.
  destruct (log_ratio (cellf d a) (prev a)) eqn:E; try reflexivity.
  exfalso. apply (H NaN); [| reflexivity].
  apply in_map_iff. exists a. auto.
Qed.

(** A retained date of the output has a date of the table immediately
    before it, and no asset is without a price on either of the two. *)
Lemma retained_date (prices : list price_row) (d : date) (vals : list float64) :
  table_assets prices <> [] ->
  In (d, vals)
     (filter (fun r => negb (existsb isnan (snd r)))
             (ratio_rows (cell prices) (table_assets prices) (fun _ => NaN)
                         (table_dates prices))) ->
  exists d',
    consecutive (table_dates prices) d' d /\
    vals = map (fun a => log_ratio (cell prices d a) (cell prices d' a))
               (table_assets prices) /\
    forall a, In a (table_assets prices) ->
              cell prices d a <> NaN /\ cell prices d' a <> NaN.
Proof.
  intros Hcols Hin. apply filter_In in Hin as [Hin Hnan].
  cbn [snd] in Hnan. apply negb_true_iff in Hnan.
  destruct (ratio_rows_In _ _ _ _ _ _ Hin) as [[_ Hv] | (d' & Hc & Hv)]; subst vals.
  - exfalso. destruct (table_assets prices) as [| a cols]; [congruence |].
    destruct (no_nan_ratio_row _ _ _ _ Hnan a) as [_ H]; [left; auto | congruence].
  - exists d'. split; [exact Hc |]. split; [reflexivity |].
    apply (no_nan_ratio_row _ _ _ _ Hnan).
Qed.

Lemma compute_asset_returns_inv (prices : list price_row) (out : list return_row) :
  compute_asset_returns prices = Ok out ->
  has_duplicate_entries prices = false /\
  out = melt {| columns := table_assets prices;
                rows := filter (fun r => negb (existsb isnan (snd r)))
                               (ratio_rows (cell prices) (table_assets prices)
                                           (fun _ => NaN) (table_dates prices)) |}.
Proof.
  intros H. destruct (has_duplicate_entries prices) eqn:Hdup.
  - rewrite compute_asset_returns_raises in H by exact Hdup. discriminate.
  - rewrite compute_asset_returns_eq in H by exact Hdup. inversion H. auto.
Qed.

Lemma table_assets_In (prices : list price_row) (a : asset) :
  In a (table_assets prices) <-> In a (map pr_asset prices).
Proof. apply sorted_unique_In. exact string_compare_eq. Qed.

Lemma table_dates_In (prices : list price_row) (d : date) :
  In d (table_dates prices) <-> In d (map pr_date prices).
Proof. apply sorted_unique_In. exact string_compare_eq. Qed.

(** A date of the output comes from a retained row of the frame. *)
Lemma output_date_row (cols : list asset) (rws : list (date * list float64))
    (d : date) :
  In d (map r_date (melt {| columns := cols; rows := rws |})) ->
  cols <> [] /\ exists vals, In (d, vals) rws.
Proof.
  intros H. apply in_map_iff in H as (r & <- & Hr).
  apply melt_In in Hr as (j & a & [d vals] & Hn & Hrow & ->). cbn in *.
  split; [destruct cols; [destruct j; discriminate | discriminate] |].
  exists vals. exact Hrow.
Qed.

(** C10: the output of [compute_asset_returns] is rectangular over the
    assets: any two assets of the output have returns on the same dates; a
    date of the output is a row of the pivoted price table that has a row
    immediately before it, and every asset column has a price (no [NaN]) in
    both rows; hence an asset without a price on a date leaves no return of
    any asset on that date. *)
Theorem compute_asset_returns_rectangular :
  forall (prices : list price_row) (out : list return_row),
    compute_asset_returns prices = Ok out ->
    (forall a1 a2,
        In a1 (map r_asset out) -> In a2 (map r_asset out) ->
        forall d, In d (map r_date (returns_of out a1)) <->
                  In d (map r_date (returns_of out a2))) /\
    (forall d,
        In d (map r_date out) ->
        exists wide i prev cur,
          pivot prices = Ok wide /\
          nth_error (rows wide) i = Some prev /\
          nth_error (rows wide) (S i) = Some cur /\
          fst cur = d /\
          length (snd prev) = length (columns wide) /\
          length (snd cur) = length (columns wide) /\
          Forall (fun x => x <> NaN) (snd prev) /\
          Forall (fun x => x <> NaN) (snd cur)) /\
    (forall d a,
        In a (map pr_asset prices) -> cell prices d a = NaN ->
        ~ In d (map r_date out)).
Proof.
  intros prices out Hrun.
  apply compute_asset_returns_inv in Hrun as [Hdup ->].
  split; [| split].
  - intros a1 a2 H1 H2 d. apply melt_assets in H1, H2. cbn [columns] in H1, H2.
    rewrite !melt_dates_of. cbn [columns rows]. tauto.
  - intros d Hd. apply output_date_row in Hd as (Hcols & vals & Hin).
    destruct (retained_date prices d vals Hcols Hin)
      as (d' & (i & Hi & HSi) & _ & Hcells).
    exists {| columns := table_assets prices;
              rows := map (fun d => (d, map (cell prices d) (table_assets prices)))
                          (table_dates prices) |}.
    exists i, (d', map (cell prices d') (table_assets prices)),
           (d, map (cell prices d) (table_assets prices)).
    cbn [columns rows fst snd]. rewrite !length_map.
    repeat split.
    + unfold pivot. rewrite Hdup. reflexivity.
    + apply (map_nth_error
               (fun d => (d, map (cell prices d) (table_assets prices)))).
      exact Hi.
    + apply (map_nth_error
               (fun d => (d, map (cell prices d) (table_assets prices)))).
      exact HSi.
    + apply Forall_forall. intros x Hx. apply in_map_iff in Hx as (a & <- & Ha).
      apply (Hcells a Ha).
    + apply Forall_forall. intros x Hx. apply in_map_iff in Hx as (a & <- & Ha).
      apply (Hcells a Ha).
  - intros d a Ha Hnan Hd. apply output_date_row in Hd as (Hcols & vals & Hin).
    destruct (retained_date prices d vals Hcols Hin) as (d' & _ & _ & Hcells).
    apply table_assets_In in Ha. destruct (Hcells a Ha) as [Hc _]. congruence.
Qed.

(** *** Counting the returns of an asset *)

Lemma cell_not_nan (prices : list price_row) (d : date) (a : asset) :
  cell prices d a <> NaN ->
  exists p, In p prices /\ pr_date p = d /\ pr_asset p = a.
Proof.
  unfold cell. destruct (find (price_key_eqb d a) prices) as [p |] eqn:Hf;
    [| congruence].
  intros _. apply find_some in Hf as [Hin Hkey].
  unfold price_key_eqb in Hkey. apply andb_true_iff in Hkey as [Hd Ha].
  apply String.eqb_eq in Hd, Ha. exists p. auto.
Qed.

Lemma nth_map_column {A : Type} (f : A -> float64) (l : list A) (j : nat) (a : A) :
  nth_error l j = Some a -> nth j (map f l) NaN = f a.
Proof.
  revert j. induction l as [| x l IH]; intros [| j] H; simpl in *;
    try discriminate.
  - inversion H. reflexivity.
  - apply IH, H.
Qed.

Lemma consecutive_distinct (l : list date) (d1 d2 : date) :
  NoDup l -> consecutive l d1 d2 -> d1 <> d2.
Proof.
  intros Hnd (i & Hi & HSi) Heq. subst d2.
  assert (Hlt : (i < length l)%nat) by (apply nth_error_Some; congruence).
  pose proof (proj1 (NoDup_nth_error l) Hnd i (S i) Hlt) as H.
  rewrite Hi, HSi in H. specialize (H eq_refl). lia.
Qed.

Lemma table_dates_NoDup (prices : list price_row) : NoDup (table_dates prices).
Proof.
  apply sorted_unique_NoDup.
  - exact string_compare_eq.
  - exact String.compare_antisym.
  - exact string_compare_trans.
Qed.

Lemma table_assets_NoDup (prices : list price_row) : NoDup (table_assets prices).
Proof.
  apply sorted_unique_NoDup.
  - exact string_compare_eq.
  - exact String.compare_antisym.
  - exact string_compare_trans.
Qed.

Lemma two_distinct_members {A : Type} (l : list A) (x y : A) :
  In x l -> In y l -> x <> y -> (2 <= length l)%nat.
Proof.
  intros Hx Hy Hne.
  assert (Hnd : NoDup [x; y]).
  { constructor; [simpl; intuition congruence |].
    constructor; [simpl; tauto | constructor]. }
  apply (NoDup_incl_length Hnd). intros z [<- | [<- | []]]; assumption.
Qed.

Lemma asset_dates_NoDup (prices : list price_row) (a : asset) :
  has_duplicate_entries prices = false ->
  NoDup (map pr_date (filter (fun p => String.eqb (pr_asset p) a) prices)).
Proof.
  induction prices as [| p rest IH]; intros Hdup; [constructor |].
  cbn [has_duplicate_entries] in Hdup. apply orb_false_iff in Hdup as [Hp Hrest].
  cbn [filter]. destruct (String.eqb (pr_asset p) a) eqn:Ha; [| apply IH, Hrest].
  cbn [map]. constructor; [| apply IH, Hrest].
  intros Hin. apply in_map_iff in Hin as (p' & Hd & Hp').
  apply filter_In in Hp' as [Hin' Ha'].
  apply String.eqb_eq in Ha, Ha'.
  assert (Hex : existsb (price_key_eqb (pr_date p) (pr_asset p)) rest = true).
  { apply existsb_exists. exists p'. split; [exact Hin' |].
    unfold price_key_eqb. rewrite Hd, Ha, Ha', !String.eqb_refl. reflexivity. }
  congruence.
Qed.

(** On a complete table every asset has one price row per date. *)
Lemma observations_complete (prices : list price_row) (a : asset) :
  has_duplicate_entries prices = false ->
  complete_positive prices ->
  In a (map pr_asset prices) ->
  observations prices a = length (table_dates prices).
Proof.
  intros Hdup Hc Ha. unfold observations.
  rewrite <- (length_map pr_date).
  apply Permutation_length, NoDup_Permutation.
  - apply asset_dates_NoDup, Hdup.
  - apply table_dates_NoDup.
  - intros d. rewrite table_dates_In. split.
    + intros H. apply in_map_iff in H as (p & <- & Hp).
      apply filter_In in Hp as [Hp _]. apply in_map, Hp.
    + intros Hd. destruct (Hc d a Hd Ha) as (x & Hx & _).
      destruct (cell_not_nan prices d a) as (p & Hp & Hpd & Hpa); [congruence |].
      apply in_map_iff. exists p. split; [exact Hpd |].
      apply filter_In. split; [exact Hp |]. apply String.eqb_eq, Hpa.
Qed.

Lemma log_ratio_positive (x y : R) :
  0 < x -> 0 < y -> log_ratio (Fin x) (Fin y) = Fin (ln (x / y)).
Proof.
  intros Hx Hy. unfold log_ratio. simpl.
  rewrite Reqb_false by lra.
  assert (0 < x / y) by (apply Rdiv_lt_0_compat; assumption).
  simpl. rewrite Rltb_true by assumption. reflexivity.
Qed.

Lemma ratio_rows_dates (cellf : date -> asset -> float64) (cols : list asset)
    (dates : list date) :
  forall prev, map fst (ratio_rows cellf cols prev dates) = dates.
Proof.
  induction dates as [| d rest IH]; intros prev; simpl; [reflexivity |].
  f_equal. apply IH.
Qed.

(** With positive prices everywhere no row after the first is dropped. *)
Lemma ratio_rows_complete (cellf : date -> asset -> float64) (cols : list asset)
    (dates : list date) :
  (forall d a, In d dates -> In a cols -> exists x, cellf d a = Fin x /\ 0 < x) ->
  forall prev,
    (forall a, In a cols -> exists y, prev a = Fin y /\ 0 < y) ->
    filter (fun r => negb (existsb isnan (snd r))) (ratio_rows cellf cols prev dates)
    = ratio_rows cellf cols prev dates.
Proof.
  induction dates as [| d rest IH]; intros Hpos prev Hprev; [reflexivity |].
  cbn [ratio_rows filter snd].
  assert (Hrow : existsb isnan (map (fun a => log_ratio (cellf d a) (prev a)) cols)
                 = false).
  { apply existsb_isnan_false, Forall_forall. intros v Hv.
    apply in_map_iff in Hv as (a & <- & Ha).
    destruct (Hpos d a (or_introl eq_refl) Ha) as (x & -> & Hx).
    destruct (Hprev a Ha) as (y & -> & Hy).
    rewrite log_ratio_positive by assumption. discriminate. }
  rewrite Hrow. cbn [negb]. f_equal. apply IH.
  - intros d' a Hd' Ha. apply Hpos; [right; exact Hd' | exact Ha].
  - intros a Ha. apply Hpos; [left; reflexivity | exact Ha].
Qed.

Lemma first_row_dropped (cellf : date -> asset -> float64) (cols : list asset)
    (d : date) :
  cols <> [] ->
  existsb isnan (map (fun a => log_ratio (cellf d a) NaN) cols) = true.
Proof.
  destruct cols as [| a cols]; [congruence |]. intros _. simpl.
  unfold log_ratio. destruct (cellf d a); reflexivity.
Qed.

Lemma filter_block_same (rws : list (date * list float64)) (j : nat) (a : asset) :
  filter (fun r => String.eqb (r_asset r) a)
         (map (fun r => {| r_date := fst r; r_asset := a;
                           r_return := nth j (snd r) NaN |}) rws)
  = map (fun r => {| r_date := fst r; r_asset := a;
                     r_return := nth j (snd r) NaN |}) rws.
Proof.
  induction rws as [| r rws IH]; [reflexivity |].
  cbn [map filter r_asset]. rewrite String.eqb_refl. f_equal. exact IH.
Qed.

Lemma filter_block_other (rws : list (date * list float64)) (j : nat) (a c : asset) :
  c <> a ->
  filter (fun r => String.eqb (r_asset r) a)
         (map (fun r => {| r_date := fst r; r_asset := c;
                           r_return := nth j (snd r) NaN |}) rws)
  = [].
Proof.
  intros Hne. apply String.eqb_neq in Hne.
  induction rws as [| r rws IH]; [reflexivity |].
  cbn [map filter r_asset]. rewrite Hne. exact IH.
Qed.

Lemma filter_blocks (rws : list (date * list float64)) (a : asset)
    (cols : list asset) :
  NoDup cols ->
  forall j s,
    nth_error cols j = Some a ->
    filter (fun r => String.eqb (r_asset r) a)
      (flat_map
         (fun ja : nat * asset =>
            map (fun r => {| r_date := fst r; r_asset := snd ja;
                             r_return := nth (fst ja) (snd r) NaN |}) rws)
         (combine (seq s (length cols)) cols))
    = map (fun r => {| r_date := fst r; r_asset := a;
                       r_return := nth (s + j) (snd r) NaN |}) rws.
Proof.
  induction 1 as [| c cs Hc Hcs IH]; intros j s Hj; [destruct j; discriminate |].
  cbn [length seq combine flat_map fst snd]. rewrite filter_app.
  destruct j as [| j]; cbn in Hj.
  - inversion Hj; subst c. rewrite Nat.add_0_r, filter_block_same.
    rewrite <- app_nil_r. f_equal.
    clear IH Hcs Hj. revert s.
    induction cs as [| c cs IHcs]; intros s; [reflexivity |].
    cbn [length seq combine flat_map fst snd]. rewrite filter_app.
    rewrite filter_block_other by (intros ->; apply Hc; left; reflexivity).
    apply IHcs. intros H. apply Hc. right. exact H.
  - rewrite filter_block_other
      by (intros ->; apply Hc; eapply nth_error_In; eauto).
    cbn [app]. rewrite (IH j (S s) Hj).
    replace (S s + j)%nat with (s + S j)%nat by lia. reflexivity.
Qed.

(** The rows of one asset in the long table. *)
Lemma melt_returns_of (cols : list asset) (rws : list (date * list float64))
    (j : nat) (a : asset) :
  NoDup cols -> nth_error cols j = Some a ->
  returns_of (melt {| columns := cols; rows := rws |}) a
  = map (fun r => {| r_date := fst r; r_asset := a;
                     r_return := nth j (snd r) NaN |}) rws.
Proof.
  intros Hnd Hj. unfold returns_of, melt. cbn [columns rows].
  rewrite (filter_blocks rws a cols Hnd j 0%nat Hj). reflexivity.
Qed.


(** Unfolds a pipeline on a concrete table, deciding the comparisons of
    reals met on the way. *)
Ltac evaluate := repeat (cbn; real_decide).

Lemma prices_gap_returns : compute_asset_returns prices_gap = Ok returns_gap.
Proof. unfold compute_asset_returns, prices_gap, returns_gap. evaluate. reflexivity. Qed.

Lemma prices_gap_alone_returns :
  compute_asset_returns
    (filter (fun p => String.eqb (pr_asset p) "A"%string) prices_gap)
  = Ok [ {| r_date := "2020-01-02"; r_asset := "A";
            r_return := Fin (ln (110 / 100)) |};
         {| r_date := "2020-01-03"; r_asset := "A";
            r_return := Fin (ln (121 / 110)) |} ]%string.
Proof. unfold compute_asset_returns, prices_gap. evaluate. reflexivity. Qed.



Lemma compute_asset_returns_rectangular_witness :
  compute_asset_returns prices_gap = Ok returns_gap /\
  (In "2020-01-03"%string (map r_date (returns_of returns_gap "A"%string)) <->
   In "2020-01-03"%string (map r_date (returns_of returns_gap "B"%string))).
Proof.
  split; [exact prices_gap_returns |].
  destruct (compute_asset_returns_rectangular prices_gap returns_gap
              prices_gap_returns) as (Hrect & _ & _).
  apply Hrect; simpl; auto.
Defined.

(** ** Portfolio Aggregator *)

Lemma filter_map_comm {A B : Type} (f : A -> B) (P : B -> bool) (l : list A) :
  filter P (map f l) = map f (filter (fun x => P (f x)) l).
Proof.
  induction l as [| x l IH]; simpl; [reflexivity |].
  destruct (P (f x)); simpl; rewrite IH; reflexivity.
Qed.

Lemma filter_filter {A : Type} (P Q : A -> bool) (l : list A) :
  filter Q (filter P l) = filter (fun x => P x && Q x) l.
Proof.
  induction l as [| x l IH]; simpl; [reflexivity |].
  destruct (P x); simpl; [destruct (Q x); simpl |]; rewrite IH; reflexivity.
Qed.

(** The inner join is the matching part of the product of the tables. *)
Lemma merge_positions_prod (returns : list return_row)
    (positions : list position_row) :
  merge_positions returns positions
  = map merged_of
        (filter (fun rp => String.eqb (r_asset (fst rp)) (pos_asset (snd rp)))
                (list_prod returns positions)).
Proof.
  unfold merge_positions.
  induction returns as [| r rs IH]; [reflexivity |].
  cbn [flat_map list_prod]. rewrite filter_app, map_app, IH. f_equal.
  rewrite filter_map_comm, !map_map. reflexivity.
Qed.

Lemma get_group_members (returns : list return_row)
    (positions : list position_row) (d : date) (f : Z) :
  get_group (merge_positions returns positions) (d, f)
  = map merged_of (group_members returns positions d f).
Proof.
  unfold get_group, group_members.
  rewrite merge_positions_prod, filter_map_comm, filter_filter. f_equal.
  apply filter_ext. intros [r p]. unfold key_eqb, group_key. simpl.
  rewrite andb_assoc. reflexivity.
Qed.

Lemma weighted_average_members (g : list (return_row * position_row)) :
  weighted_average (map merged_of g) = div (weighted_sum g) (quantity_sum g).
Proof.
  unfold weighted_average, weighted_sum, quantity_sum. rewrite !map_map.
  reflexivity.
Qed.

Lemma group_present (returns : list return_row)
    (positions : list position_row) (d : date) (f : Z) :
  In (d, f) (map group_key (merge_positions returns positions)) <->
  group_members returns positions d f <> [].
Proof.
  split.
  - intros H Hnil. apply in_map_iff in H as (m & Hk & Hm).
    assert (Hg : In m (get_group (merge_positions returns positions) (d, f))).
    { apply filter_In. split; [exact Hm | apply key_eqb_eq, Hk]. }
    rewrite get_group_members, Hnil in Hg. exact Hg.
  - intros Hne.
    destruct (group_members returns positions d f) as [| rp g] eqn:E; [congruence |].
    assert (Hg : In (merged_of rp)
                    (get_group (merge_positions returns positions) (d, f))).
    { rewrite get_group_members, E. left. reflexivity. }
    apply filter_In in Hg as [Hm Hk]. apply key_eqb_eq in Hk.
    apply in_map_iff. exists (merged_of rp). auto.
Qed.

(** What [build_portfolio_returns] returns on a non-empty join. *)
Lemma build_portfolio_returns_eq (returns : list return_row)
    (positions : list position_row) :
  merge_positions returns positions <> [] ->
  build_portfolio_returns returns positions
  = Ok (map (fun k => {| pf_date := fst k; pf_fund_id := snd k;
                         portfolio_return :=
                           quantity_weighted_average returns positions (fst k) (snd k) |})
            (sorted_unique key_compare
               (map group_key (merge_positions returns positions)))).
Proof.
  intros Hne. unfold build_portfolio_returns.
  destruct (merge_positions returns positions) as [| m ms] eqn:E; [congruence |].
  rewrite <- E. f_equal. apply map_ext. intros [d f]. cbn [fst snd]. f_equal.
  rewrite get_group_members. apply weighted_average_members.
Qed.

Lemma fold_left_Rplus (xs : list R) :
  forall a, fold_left Rplus xs a = a + Rsum xs.
Proof.
  unfold Rsum. induction xs as [| x xs IH]; intros a; simpl; [lra |].
  rewrite IH. lra.
Qed.

Lemma fold_left_add_Fin (xs : list R) :
  forall a, fold_left add (map Fin xs) (Fin a) = Fin (fold_left Rplus xs a).
Proof.
  induction xs as [| x xs IH]; intros a; [reflexivity |]. simpl. apply IH.
Qed.

(** On finite cells the pandas sum is the sum of the reals. *)
Lemma series_sum_Fin (xs : list R) : series_sum (map Fin xs) = Fin (Rsum xs).
Proof.
  unfold series_sum, np_sum.
  assert (Hf : filter (fun a => negb (isnan a)) (map Fin xs) = map Fin xs).
  { induction xs as [| x xs IH]; [reflexivity |]. simpl. rewrite IH. reflexivity. }
  rewrite Hf, fold_left_add_Fin, fold_left_Rplus. f_equal. lra.
Qed.

Lemma finite_group_sums (g : list (return_row * position_row))
    (rq : list (R * R)) :
  finite_group g rq ->
  weighted_sum g = Fin (Rsum (map (fun x => fst x * snd x) rq)) /\
  quantity_sum g = Fin (Rsum (map snd rq)).
Proof.
  unfold finite_group, weighted_sum, quantity_sum. intros H. split.
  - rewrite <- series_sum_Fin. f_equal.
    transitivity (map (fun c : float64 * float64 => mul (fst c) (snd c))
                      (map (fun rp : return_row * position_row =>
                              (r_return (fst rp), quantity (snd rp))) g)).
    + rewrite map_map. reflexivity.
    + rewrite H, !map_map. reflexivity.
  - rewrite <- series_sum_Fin. f_equal.
    transitivity (map (fun c : float64 * float64 => snd c)
                      (map (fun rp : return_row * position_row =>
                              (r_return (fst rp), quantity (snd rp))) g)).
    + rewrite map_map. reflexivity.
    + rewrite H, !map_map. reflexivity.
Qed.

(** C2: on a non-empty join [build_portfolio_returns] returns one row
    for each (date, fund) group present after the inner join on asset, and
    the return of the row is the sum of [return_i * quantity_i] divided by
    the sum of [quantity_i] over the assets present in the group; on finite
    returns and quantities with a non-zero total quantity this is the
    quotient of the two sums of reals. *)
Theorem build_portfolio_returns_weighted_average :
  forall (returns : list return_row) (positions : list position_row),
    merge_positions returns positions <> [] ->
    exists out,
      build_portfolio_returns returns positions = Ok out /\
      NoDup (map (fun p => (pf_date p, pf_fund_id p)) out) /\
      (forall d f,
          In (d, f) (map (fun p => (pf_date p, pf_fund_id p)) out) <->
          group_members returns positions d f <> []) /\
      (forall p, In p out ->
          let g := group_members returns positions (pf_date p) (pf_fund_id p) in
          portfolio_return p = div (weighted_sum g) (quantity_sum g) /\
          forall rq, finite_group g rq -> Rsum (map snd rq) <> 0 ->
            portfolio_return p
            = Fin (Rsum (map (fun x => fst x * snd x) rq) / Rsum (map snd rq))).
Proof.
  intros returns positions Hne. eexists.
  split; [apply build_portfolio_returns_eq, Hne |].
  assert (Hkeys : forall (l : list (date * Z)),
             map (fun p => (pf_date p, pf_fund_id p))
                 (map (fun k => {| pf_date := fst k; pf_fund_id := snd k;
                                   portfolio_return :=
                                     quantity_weighted_average returns positions
                                       (fst k) (snd k) |}) l) = l).
  { intros l. rewrite map_map. cbn [pf_date pf_fund_id].
    rewrite <- (map_id l) at 2. apply map_ext. intros []; reflexivity. }
  rewrite Hkeys. split; [| split].
  - apply sorted_unique_NoDup.
    + exact key_compare_eq.
    + exact key_compare_antisym.
    + exact key_compare_trans.
  - intros d f. rewrite (sorted_unique_In key_compare key_compare_eq).
    apply group_present.
  - intros p Hp. apply in_map_iff in Hp as (k & <- & _).
    cbn [pf_date pf_fund_id portfolio_return]. split; [reflexivity |].
    intros rq Hfin Hq. unfold quantity_weighted_average. cbv zeta.
    destruct (finite_group_sums _ _ Hfin) as [-> ->]. simpl.
    rewrite Reqb_false by exact Hq. reflexivity.
Qed.

Lemma two_assets_portfolio :
  build_portfolio_returns returns_two_assets positions_two_assets
  = Ok [ {| pf_date := "2020-01-02"; pf_fund_id := 1;
            portfolio_return := Fin (- (25 / 10000)) |} ]%string.
Proof.
  unfold build_portfolio_returns, returns_two_assets, positions_two_assets.
  cbn. unfold weighted_average, series_sum, np_sum. evaluate.
  do 4 f_equal. lra.
Qed.

(** The scenario of C2: 100 of A at 0.02 and 300 of B at -0.01 give the
    portfolio return -0.0025. *)
Lemma build_portfolio_returns_weighted_average_witness :
  build_portfolio_returns returns_two_assets positions_two_assets
  = Ok [ {| pf_date := "2020-01-02"; pf_fund_id := 1;
            portfolio_return := Fin (- (25 / 10000)) |} ]%string /\
  exists out,
    build_portfolio_returns returns_two_assets positions_two_assets = Ok out /\
    NoDup (map (fun p => (pf_date p, pf_fund_id p)) out) /\
    forall p, In p out ->
      portfolio_return p
      = quantity_weighted_average returns_two_assets positions_two_assets
                                  (pf_date p) (pf_fund_id p).
Proof.
  split; [exact two_assets_portfolio |].
  destruct (build_portfolio_returns_weighted_average
              returns_two_assets positions_two_assets)
    as (out & Hrun & Hnd & _ & Hval).
  - cbn. discriminate.
  - exists out. split; [exact Hrun |]. split; [exact Hnd |].
    intros p Hp. apply (Hval p Hp).
Defined.

Lemma series_sum_zeros (l : list float64) :
  Forall (fun v => v = NaN \/ v = Fin 0) l -> series_sum l = Fin 0.
Proof.
  unfold series_sum, np_sum.
  induction 1 as [| v l [-> | ->] Hl IH]; cbn [filter isnan negb fold_left].
  - reflexivity.
  - exact IH.
  - rewrite add_zero_l. exact IH.
Qed.

Lemma mul_zero_quantity (r : float64) : mul r (Fin 0) = NaN \/ mul r (Fin 0) = Fin 0.
Proof.
  destruct r as [x | | |]; simpl.
  - right. f_equal. lra.
  - left. unfold inf_signed. rewrite !Rltb_false by lra. reflexivity.
  - left. unfold inf_signed. rewrite !Rltb_false by lra. reflexivity.
  - left. reflexivity.
Qed.

Lemma div_by_zero (a : float64) :
  div a (Fin 0) =
    match a with
    | Fin w => if Rltb 0 w then PInf else if Rltb w 0 then NInf else NaN
    | other => other
    end.
Proof.
  destruct a as [w | | |]; simpl.
  - rewrite Reqb_true by reflexivity. reflexivity.
  - rewrite Rltb_false by lra. reflexivity.
  - rewrite Rltb_false by lra. reflexivity.
  - reflexivity.
Qed.

Lemma nonneg_sum_zero (qs : list R) :
  Forall (fun q => 0 <= q) qs -> Rsum qs = 0 -> Forall (fun q => q = 0) qs.
Proof.
  unfold Rsum. induction 1 as [| q qs Hq Hqs IH]; intros Hsum; [constructor |].
  simpl in Hsum.
  assert (Hrest : 0 <= fold_right Rplus 0 qs).
  { clear IH Hsum. induction Hqs as [| x xs Hx _ IHx]; simpl; lra. }
  constructor; [lra | apply IH; lra].
Qed.

(** Quantities that are not negative and sum to zero are all zero. *)
Lemma zero_total_nonneg (l : list float64) :
  (forall v, In v l -> exists q, v = Fin q /\ 0 <= q) ->
  series_sum l = Fin 0 ->
  forall v, In v l -> v = Fin 0.
Proof.
  intros Hall Hsum.
  assert (Hqs : exists qs, l = map Fin qs /\ Forall (fun q => 0 <= q) qs).
  { clear Hsum. induction l as [| v l IH].
    - exists []. split; [reflexivity | constructor].
    - destruct (Hall v (or_introl eq_refl)) as (q & -> & Hq).
      destruct IH as (qs & -> & Hqs); [intros w Hw; apply Hall; right; exact Hw |].
      exists (q :: qs). split; [reflexivity | constructor; assumption]. }
  destruct Hqs as (qs & -> & Hqs).
  rewrite series_sum_Fin in Hsum. injection Hsum as Hzero.
  pose proof (nonneg_sum_zero qs Hqs Hzero) as Hz. rewrite Forall_forall in Hz.
  intros v Hv. apply in_map_iff in Hv as (q & <- & Hq). f_equal. apply Hz, Hq.
Qed.

(** C8, as the code has it: a (date, fund) group whose quantities sum
    to zero raises nothing; its portfolio return is [NaN] when the weighted
    returns of the group sum to zero as well, which is the case when every
    quantity of the group is zero and so whenever no quantity of the group is
    negative; it is [+inf] or [-inf], by the sign of that sum, when they do
    not; and a sum that is not finite is passed on. *)
Theorem build_portfolio_returns_zero_quantity :
  forall (returns : list return_row) (positions : list position_row),
    merge_positions returns positions <> [] ->
    exists out,
      build_portfolio_returns returns positions = Ok out /\
      forall p, In p out ->
        let g := group_members returns positions (pf_date p) (pf_fund_id p) in
        quantity_sum g = Fin 0 ->
        ((forall rp, In rp g -> exists q, quantity (snd rp) = Fin q /\ 0 <= q) ->
         portfolio_return p = NaN) /\
        (weighted_sum g = Fin 0 -> portfolio_return p = NaN) /\
        (forall w, weighted_sum g = Fin w -> 0 < w -> portfolio_return p = PInf) /\
        (forall w, weighted_sum g = Fin w -> w < 0 -> portfolio_return p = NInf) /\
        (isfinite (weighted_sum g) = false ->
         portfolio_return p = weighted_sum g).
Proof.
  intros returns positions Hne.
  eexists. split; [apply build_portfolio_returns_eq, Hne |].
  intros p Hp. apply in_map_iff in Hp as ([d f] & <- & _).
  cbn [pf_date pf_fund_id portfolio_return fst snd].
  unfold quantity_weighted_average. cbv zeta.
  set (g := group_members returns positions d f).
  intros Hq. rewrite Hq, div_by_zero.
  split; [| split; [| split; [| split]]].
  - intros Hall.
    assert (Hzero : forall rp, In rp g -> quantity (snd rp) = Fin 0).
    { intros rp Hrp.
      apply (zero_total_nonneg (map (fun rp => quantity (snd rp)) g)).
      - intros v Hv. apply in_map_iff in Hv as (rp' & <- & Hrp'). apply Hall, Hrp'.
      - exact Hq.
      - apply in_map_iff. exists rp. auto. }
    assert (Hw : weighted_sum g = Fin 0).
    { apply series_sum_zeros, Forall_forall. intros v Hv.
      apply in_map_iff in Hv as (rp & <- & Hrp). rewrite (Hzero rp Hrp).
      apply mul_zero_quantity. }
    rewrite Hw, !Rltb_false by lra. reflexivity.
  - intros ->. rewrite !Rltb_false by lra. reflexivity.
  - intros w -> Hw. rewrite Rltb_true by exact Hw. reflexivity.
  - intros w -> Hw. rewrite Rltb_false, Rltb_true by lra. reflexivity.
  - destruct (weighted_sum g); simpl; [discriminate | reflexivity ..].
Qed.

Lemma long_short_portfolio :
  build_portfolio_returns returns_long_short positions_long_short
  = Ok [ {| pf_date := "2020-01-02"; pf_fund_id := 2;
            portfolio_return := PInf |} ]%string.
Proof.
  unfold build_portfolio_returns, returns_long_short, positions_long_short.
  cbn. unfold weighted_average, series_sum, np_sum. cbn.
  rewrite Reqb_true by lra. unfold inf_signed. rewrite Rltb_true by lra.
  reflexivity.
Qed.

(** C8 fails as stated: a fund long 100 of A and short 100 of B has a
    group whose quantities sum to zero, and its portfolio return is [+inf],
    not [NaN]. *)
Lemma build_portfolio_returns_long_short_counterexample :
  build_portfolio_returns returns_long_short positions_long_short
  = Ok [ {| pf_date := "2020-01-02"; pf_fund_id := 2;
            portfolio_return := PInf |} ]%string /\
  quantity_sum (group_members returns_long_short positions_long_short
                              "2020-01-02"%string 2) = Fin 0 /\
  PInf <> NaN.
Proof.
  split; [exact long_short_portfolio |]. split; [| discriminate].
  unfold quantity_sum, series_sum, np_sum. cbn. f_equal. lra.
Qed.

Lemma unheld_portfolio :
  build_portfolio_returns returns_long_short positions_unheld
  = Ok [ {| pf_date := "2020-01-02"; pf_fund_id := 3;
            portfolio_return := NaN |} ]%string.
Proof.
  unfold build_portfolio_returns, returns_long_short, positions_unheld.
  cbn. unfold weighted_average, series_sum, np_sum. cbn.
  rewrite Reqb_true by lra. unfold inf_signed. rewrite !Rltb_false by lra.
  reflexivity.
Qed.

(** The scenario of C8: a fund whose only present holding has zero
    quantity gets [NaN]. *)
Lemma build_portfolio_returns_zero_quantity_witness :
  build_portfolio_returns returns_long_short positions_unheld
  = Ok [ {| pf_date := "2020-01-02"; pf_fund_id := 3;
            portfolio_return := NaN |} ]%string /\
  exists out,
    build_portfolio_returns returns_long_short positions_unheld = Ok out /\
    forall p, In p out ->
      let g := group_members returns_long_short positions_unheld
                             (pf_date p) (pf_fund_id p) in
      quantity_sum g = Fin 0 -> weighted_sum g = Fin 0 ->
      portfolio_return p = NaN.
Proof.
  split; [exact unheld_portfolio |].
  destruct (build_portfolio_returns_zero_quantity
              returns_long_short positions_unheld) as (out & Hrun & Hval).
  - cbn. discriminate.
  - exists out. split; [exact Hrun |]. intros p Hp g Hq Hw.
    destruct (Hval p Hp Hq) as (_ & Hnan & _). apply Hnan, Hw.
Defined.

(** ** Report Renderer *)

Lemma np_cumsum_from_Fin (rs : list R) :
  forall a, np_cumsum_from (Fin a) (map Fin rs) = map Fin (running Rplus a rs).
Proof.
  induction rs as [| r rs IH]; intros a; [reflexivity |].
  cbn [map np_cumsum_from running add]. f_equal. apply IH.
Qed.

Lemma length_running (op : R -> R -> R) (l : list R) :
  forall acc, length (running op acc l) = length l.
Proof.
  induction l as [| x l IH]; intros acc; simpl; [reflexivity |].
  f_equal. apply IH.
Qed.

Lemma series_cumsum_Fin (rs : list R) :
  series_cumsum (map Fin rs) = map Fin (running Rplus 0 rs).
Proof.
  unfold series_cumsum.
  assert (Hvals : map (fun x => if isnan x then Fin 0 else x) (map Fin rs)
                  = map Fin rs).
  { rewrite map_map. reflexivity. }
  rewrite Hvals, np_cumsum_from_Fin. clear Hvals.
  generalize (running Rplus 0 rs), (length_running Rplus rs 0).
  induction rs as [| r rs IH]; intros [| s l] Hlen; try discriminate;
    [reflexivity |].
  unfold map2 in *. cbn [map combine fst snd isnan]. f_equal.
  apply IH. simpl in Hlen. lia.
Qed.

(** The exponential of a running sum is the running product of the
    exponentials. *)
Lemma exp_running_sum (rs : list R) :
  forall a p,
    Rtrigo_def.exp a = p ->
    map Rtrigo_def.exp (running Rplus a rs)
    = running Rmult p (map Rtrigo_def.exp rs).
Proof.
  induction rs as [| r rs IH]; intros a p Hap; [reflexivity |].
  cbn [map running]. rewrite exp_plus, Hap. f_equal.
  apply IH. rewrite exp_plus, Hap. reflexivity.
Qed.

Lemma insert_by_perm {A : Type} (key : A -> string) (x : A) (l : list A) :
  Permutation (insert_by String.compare key x l) (x :: l).
Proof.
  induction l as [| y l IH]; simpl; [reflexivity |].
  destruct (String.compare (key x) (key y)); try reflexivity.
  rewrite IH. apply perm_swap.
Qed.

Lemma sort_by_perm {A : Type} (key : A -> string) (l : list A) :
  Permutation (sort_by String.compare key l) l.
Proof.
  induction l as [| x l IH]; [reflexivity |].
  unfold sort_by in *. simpl. rewrite insert_by_perm. constructor. exact IH.
Qed.

Lemma insert_by_sorted (x : portfolio_row) (l : list portfolio_row) :
  Sorted date_le l ->
  Sorted date_le (insert_by String.compare pf_date x l) /\
  (forall y, HdRel date_le y l -> date_le y x ->
             HdRel date_le y (insert_by String.compare pf_date x l)).
Proof.
  induction l as [| z l IH]; intros Hs; simpl.
  - split; [repeat constructor | intros; constructor; assumption].
  - inversion Hs as [| ? ? Hs' Hhd]; subst.
    destruct (String.compare (pf_date x) (pf_date z)) eqn:Hc.
    + split; [| intros; constructor; assumption].
      constructor; [exact Hs | constructor; unfold date_le; congruence].
    + split; [| intros; constructor; assumption].
      constructor; [exact Hs | constructor; unfold date_le; congruence].
    + destruct (IH Hs') as [IH1 IH2]. split.
      * constructor; [exact IH1 |]. apply IH2; [exact Hhd |].
        unfold date_le. rewrite String.compare_antisym, Hc. discriminate.
      * intros y Hy _. inversion Hy; subst. constructor. assumption.
Qed.

Lemma sort_by_sorted_dates (l : list portfolio_row) :
  Sorted date_le (sort_by String.compare pf_date l).
Proof.
  induction l as [| x l IH]; [constructor |].
  unfold sort_by in *. simpl. apply insert_by_sorted, IH.
Qed.


Lemma one_return_curve :
  plot_cumulative_returns one_return 1
  = LinePlot ["2020-01-02"%string] [Fin (Rtrigo_def.exp (1 / 10) - 1)].
Proof.
  unfold plot_cumulative_returns, one_return. cbn.
  unfold series_cumsum, map2. cbn.
  replace (0 + 1 / 10) with (1 / 10) by lra. reflexivity.
Qed.



(** ** Orchestrator *)

Lemma filter_nil_existsb {A : Type} (P : A -> bool) (l : list A) :
  filter P l = [] <-> existsb P l = false.
Proof.
  induction l as [| x l IH]; simpl; [tauto |].
  destruct (P x); simpl; [split; discriminate | exact IH].
Qed.

Lemma merge_factors_nil (fund_ret : list portfolio_row)
    (factor_df : list factor_row) :
  merge_factors fund_ret factor_df = [] <->
  existsb (fun p => existsb (fun f => String.eqb (pf_date p) (f_date f)) factor_df)
          fund_ret = false.
Proof.
  unfold merge_factors. induction fund_ret as [| p ps IH]; [simpl; tauto |].
  cbn [flat_map existsb]. rewrite orb_false_iff, <- IH, <- filter_nil_existsb.
  split.
  - intros H. apply app_eq_nil in H as [H1 H2]. split; [| exact H2].
    apply map_eq_nil in H1. exact H1.
  - intros [H1 H2]. rewrite H1, H2. reflexivity.
Qed.

Lemma shares_a_date_fund_rows (portfolio_returns : list portfolio_row)
    (factor_df : list factor_row) (fund : Z) :
  shares_a_date portfolio_returns factor_df fund
  = existsb (fun p => existsb (fun f => String.eqb (pf_date p) (f_date f)) factor_df)
            (fund_rows portfolio_returns fund).
Proof.
  unfold shares_a_date, fund_rows.
  induction portfolio_returns as [| p ps IH]; [reflexivity |].
  cbn [existsb filter]. destruct (Z.eqb (pf_fund_id p) fund); cbn [andb existsb];
    rewrite IH; reflexivity.
Qed.

Lemma fund_merged_nil (portfolio_returns : list portfolio_row)
    (factor_df : list factor_row) (fund : Z) :
  fund_merged portfolio_returns factor_df fund = [] <->
  shares_a_date portfolio_returns factor_df fund = false.
Proof.
  unfold fund_merged. rewrite merge_factors_nil, shares_a_date_fund_rows. tauto.
Qed.

Section OrchestratorFacts.
Variable lstsq : solver.
Variable portfolio_returns : list portfolio_row.
Variable factor_df : list factor_row.

Let overlap (fund : fund_row) : bool :=
  shares_a_date portfolio_returns factor_df (fund_id fund).

(** A fund without a common date: a notice, and nothing else. *)
Lemma process_fund_skip (st : run_state) (fund : fund_row) :
  overlap fund = false ->
  process_fund lstsq portfolio_returns factor_df st fund
  = Ok {| summary_records := summary_records st;
          stdout := stdout st ++ [NoOverlappingDates (fund_id fund)];
          saved := saved st |}.
Proof.
  intros H. apply fund_merged_nil in H. unfold process_fund.
  unfold fund_merged, fund_rows in H. rewrite H. reflexivity.
Qed.

(** A fund with a common date: one summary row of that fund. *)
Lemma process_fund_row (st : run_state) (fund : fund_row) (betas : vector) :
  overlap fund = true ->
  lstsq (fund_design portfolio_returns factor_df (fund_id fund))
        (fund_excess portfolio_returns factor_df (fund_id fund)) = Ok betas ->
  length betas = 5%nat ->
  exists rec figs,
    process_fund lstsq portfolio_returns factor_df st fund
    = Ok {| summary_records := summary_records st ++ [rec];
            stdout := stdout st;
            saved := saved st ++ figs |} /\
    s_fund_id rec = fund_id fund /\ s_fund_name rec = fund_name fund.
Proof.
  intros Hov Hsolve Hlen.
  assert (Hne : fund_merged portfolio_returns factor_df (fund_id fund) <> []).
  { intros H. apply fund_merged_nil in H. unfold overlap in Hov. congruence. }
  assert (Hret : fund_rows portfolio_returns (fund_id fund) <> []).
  { intros H. apply Hne. unfold fund_merged. rewrite H. reflexivity. }
  destruct (np_quantile_ok
              (map portfolio_return (fund_rows portfolio_returns (fund_id fund)))
              (1 + - (95 / 100))) as [thr Hthr].
  { destruct (fund_rows portfolio_returns (fund_id fund)); [congruence | discriminate]. }
  { lra. }
  pose proof (compute_var_es_unfold _ default_confidence thr Hthr) as Hvar.
  destruct betas as [| b0 [| b1 [| b2 [| b3 [| b4 [| ? ?]]]]]]; try discriminate.
  unfold process_fund. unfold fund_design, fund_excess, fund_merged, fund_rows in *.
  destruct (merge_factors _ factor_df) as [| m ms] eqn:Hm; [congruence |].
  unfold estimate_factor_exposures. rewrite Hsolve. cbn [bind]. rewrite Hvar.
  cbn [bind getitem nth_error].
  eexists. eexists. split; [reflexivity |]. split; reflexivity.
Qed.

Lemma main_loop_from (funds_df : list fund_row) :
  solver_succeeds lstsq portfolio_returns factor_df funds_df ->
  forall st0,
  exists st,
    main_loop lstsq portfolio_returns factor_df funds_df st0 = Ok st /\
    map s_fund_id (summary_records st)
    = map s_fund_id (summary_records st0) ++ map fund_id (filter overlap funds_df) /\
    map s_fund_name (summary_records st)
    = map s_fund_name (summary_records st0)
      ++ map fund_name (filter overlap funds_df) /\
    stdout st
    = stdout st0
      ++ map (fun f => NoOverlappingDates (fund_id f))
             (filter (fun f => negb (overlap f)) funds_df).
Proof.
  induction funds_df as [| fund rest IH]; intros Hsolve st0.
  - exists st0. cbn. rewrite !app_nil_r. auto.
  - assert (Hrest : solver_succeeds lstsq portfolio_returns factor_df rest).
    { intros f Hf. apply Hsolve. right. exact Hf. }
    cbn [main_loop filter]. destruct (overlap fund) eqn:Hov.
    + destruct (Hsolve fund (or_introl eq_refl) Hov) as (betas & Hb & Hlen).
      destruct (process_fund_row st0 fund betas Hov Hb Hlen)
        as (rec & figs & Hrun & Hid & Hname).
      rewrite Hrun. cbn [bind negb].
      destruct (IH Hrest {| summary_records := summary_records st0 ++ [rec];
                            stdout := stdout st0;
                            saved := saved st0 ++ figs |})
        as (st & Hloop & Hids & Hnames & Hout).
      exists st. cbn [summary_records stdout] in *.
      rewrite Hloop, Hids, Hnames, Hout, !map_app. cbn [map].
      rewrite Hid, Hname, <- !app_assoc. auto.
    + rewrite (process_fund_skip st0 fund Hov). cbn [bind negb].
      destruct (IH Hrest {| summary_records := summary_records st0;
                            stdout := stdout st0 ++ [NoOverlappingDates (fund_id fund)];
                            saved := saved st0 |})
        as (st & Hloop & Hids & Hnames & Hout).
      exists st. cbn [summary_records stdout] in *.
      rewrite Hloop, Hids, Hnames, Hout. cbn [map]. rewrite <- app_assoc. auto.
Qed.
End OrchestratorFacts.



(** ** Factor Exposure Estimator *)

Lemma map2_map_left {A B C : Type} (f : B -> A -> C) (g : A -> B) (l : list A) :
  map2 f (map g l) l = map (fun a => f (g a) a) l.
Proof.
  rewrite <- (map_id l) at 2. apply map2_map_same.
Qed.

Lemma sum_squares_map {A : Type} (f : A -> R) (l : list A) :
  sum_squares (map f l) = fold_right Rplus 0 (map (fun a => f a * f a) l).
Proof.
  unfold sum_squares, Rdot. rewrite map2_map_same. reflexivity.
Qed.

Lemma sum_of_squares_nonneg {A : Type} (f : A -> R) (l : list A) :
  0 <= fold_right Rplus 0 (map (fun a => f a * f a) l).
Proof.
  induction l as [| a l IH]; simpl; [lra |]. nra.
Qed.

Lemma sum_of_squares_zero {A : Type} (f : A -> R) (l : list A) :
  fold_right Rplus 0 (map (fun a => f a * f a) l) = 0 ->
  forall a, In a l -> f a = 0.
Proof.
  induction l as [| x l IH]; simpl; [tauto |]. intros H a [<- | Ha].
  - pose proof (sum_of_squares_nonneg f l). nra.
  - apply IH; [| exact Ha]. pose proof (sum_of_squares_nonneg f l). nra.
Qed.

Lemma rss_half_market (X : list (list R)) (b : list R) :
  rss X (half_market X) b
  = fold_right Rplus 0
      (map (fun row => (1 / 2 * nth 0 row 0 - Rdot row b)
                       * (1 / 2 * nth 0 row 0 - Rdot row b)) X).
Proof.
  unfold rss, half_market.
  rewrite (map2_map_left (fun yi row => yi - Rdot row b)).
  apply (sum_squares_map (fun row => 1 / 2 * nth 0 row 0 - Rdot row b)).
Qed.

(** Destructs a row known to have five cells. *)
Ltac five_cells row H :=
  destruct row as [| ? [| ? [| ? [| ? [| ? [| ? ?]]]]]]; try discriminate H.

Lemma Rdot_five (x0 x1 x2 x3 x4 b0 b1 b2 b3 b4 : R) :
  Rdot [x0; x1; x2; x3; x4] [b0; b1; b2; b3; b4]
  = x0 * b0 + x1 * b1 + x2 * b2 + x3 * b3 + x4 * b4.
Proof. unfold Rdot, map2. simpl. ring. Qed.

Lemma rss_half_market_betas (X : list (list R)) :
  Forall (fun row => length row = 5%nat) X ->
  rss X (half_market X) half_market_betas = 0.
Proof.
  intros Hrows. rewrite rss_half_market.
  induction Hrows as [| row X Hlen _ IH]; [reflexivity |].
  cbn [map fold_right]. rewrite IH. five_cells row Hlen.
  unfold half_market_betas. rewrite Rdot_five. simpl. ring.
Qed.

(** The normal equation of the market column, for coefficients that fit
    without residual. *)
Lemma market_normal_equation (X : list (list R)) (b0 b1 b2 b3 b4 : R) :
  Forall (fun row => length row = 5%nat) X ->
  (forall row, In row X ->
     1 / 2 * nth 0 row 0 - Rdot row [b0; b1; b2; b3; b4] = 0) ->
  1 / 2 * col_dot 0 0 X
  = b0 * col_dot 0 0 X + b1 * col_dot 0 1 X + b2 * col_dot 0 2 X
    + b3 * col_dot 0 3 X + b4 * col_dot 0 4 X.
Proof.
  intros Hrows. unfold col_dot.
  induction Hrows as [| row X Hlen _ IH]; intros Hfit; [simpl; ring |].
  pose proof (Hfit row (or_introl eq_refl)) as Hrow.
  specialize (IH (fun r Hr => Hfit r (or_intror Hr))).
  five_cells row Hlen. rewrite Rdot_five in Hrow. cbn [map fold_right nth] in *.
  clear Hfit Hlen.
  match goal with
  | Hrow : 1 / 2 * ?x - ?fit = 0 |- _ =>
      assert (Hr : 1 / 2 * x * x = x * fit)
        by (replace fit with (1 / 2 * x) by lra; ring)
  end.
  lra.
Qed.

Lemma dot_half_market_betas (row : list R) :
  length row = 5%nat ->
  sub (Fin (1 / 2 * nth 0 row 0)) (dot (map Fin row) (map Fin half_market_betas))
  = Fin 0.
Proof.
  intros Hlen. five_cells row Hlen.
  unfold dot, np_sum, map2, half_market_betas. simpl. f_equal. ring.
Qed.

Lemma np_mean_zeros (n : nat) :
  (0 < n)%nat -> np_mean (repeat (Fin 0) n) = Fin 0.
Proof.
  intros Hn. unfold np_mean, np_sum. rewrite repeat_length.
  assert (Hsum : forall k, fold_left add (repeat (Fin 0) k) (Fin 0) = Fin 0).
  { induction k as [| k IH]; [reflexivity |]. simpl.
    replace (0 + 0) with 0 by lra. exact IH. }
  rewrite Hsum. simpl. assert (0 < INR n) by (apply lt_0_INR; exact Hn).
  rewrite Reqb_false by lra. f_equal. unfold Rdiv. ring.
Qed.

Lemma half_market_residuals (X : list (list R)) :
  Forall (fun row => length row = 5%nat) X ->
  map2 sub (map Fin (half_market X))
       (matvec (map (map Fin) X) (map Fin half_market_betas))
  = repeat (Fin 0) (length X).
Proof.
  intros Hrows. unfold matvec, half_market. rewrite !map_map.
  rewrite (map2_map_same sub).
  induction Hrows as [| row X' Hlen _ IH]; [reflexivity |].
  cbn [map length repeat]. rewrite IH. f_equal.
  apply dot_half_market_betas, Hlen.
Qed.

Section HalfMarket.
Variable X : list (list R).
Hypothesis five_columns : Forall (fun row => length row = 5%nat) X.
Hypothesis market_moves : col_dot 0 0 X <> 0.
Hypothesis orthogonal_smb : col_dot 0 1 X = 0.
Hypothesis orthogonal_hml : col_dot 0 2 X = 0.
Hypothesis orthogonal_rmw : col_dot 0 3 X = 0.
Hypothesis orthogonal_cma : col_dot 0 4 X = 0.

Lemma design_not_empty : X <> [].
Proof. intros E. apply market_moves. rewrite E. reflexivity. Qed.

(** Coefficients that fit without residual load one half on the market. *)
Lemma exact_fit_market_beta (b0 b1 b2 b3 b4 : R) :
  rss X (half_market X) [b0; b1; b2; b3; b4] = 0 -> b0 = 1 / 2.
Proof.
  intros Hrss. rewrite rss_half_market in Hrss.
  pose proof (sum_of_squares_zero _ _ Hrss) as Hfit. cbv beta in Hfit.
  pose proof (market_normal_equation X b0 b1 b2 b3 b4 five_columns Hfit) as Heq.
  rewrite orthogonal_smb, orthogonal_hml, orthogonal_rmw, orthogonal_cma in Heq.
  assert (H : (1 / 2 - b0) * col_dot 0 0 X = 0) by lra.
  apply Rmult_integral in H as [H | H]; [lra | contradiction].
Qed.

(** The coefficients (1/2, 0, 0, 0, 0) are a least-squares solution of
    least norm. *)
Lemma half_market_is_lstsq : is_lstsq X (half_market X) half_market_betas.
Proof.
  split; [reflexivity |]. split.
  - intros b' _. rewrite (rss_half_market_betas X five_columns).
    rewrite rss_half_market. apply sum_of_squares_nonneg.
  - intros b' Hlen Hrss. rewrite (rss_half_market_betas X five_columns) in Hrss.
    five_cells b' Hlen.
    pose proof (exact_fit_market_beta _ _ _ _ _ Hrss) as ->.
    unfold sum_squares, half_market_betas. rewrite !Rdot_five. nra.
Qed.

(** They are the only one. *)
Lemma half_market_unique (b : list R) :
  is_lstsq X (half_market X) b -> b = half_market_betas.
Proof.
  intros (Hlen & Hmin & Hnorm).
  pose proof (rss_half_market_betas X five_columns) as Hzero.
  assert (Hrss : rss X (half_market X) b = 0).
  { pose proof (Hmin half_market_betas eq_refl) as Hle. rewrite Hzero in Hle.
    assert (0 <= rss X (half_market X) b)
      by (rewrite rss_half_market; apply sum_of_squares_nonneg).
    lra. }
  pose proof (Hnorm half_market_betas eq_refl) as Hle.
  rewrite Hzero, Hrss in Hle. specialize (Hle eq_refl).
  five_cells b Hlen.
  pose proof (exact_fit_market_beta _ _ _ _ _ Hrss) as ->.
  unfold sum_squares, half_market_betas in *. rewrite !Rdot_five in Hle.
  assert (r0 = 0) by nra. assert (r1 = 0) by nra.
  assert (r2 = 0) by nra. assert (r3 = 0) by nra.
  subst. reflexivity.
Qed.

(** With the exact coefficients every residual is zero, and so is alpha. *)
Lemma estimate_half_market (lstsq : solver) (factor_df : list factor_row) :
  factor_table_of factor_df X ->
  lstsq (map (map Fin) X) (map Fin (half_market X))
  = Ok (map Fin half_market_betas) ->
  estimate_factor_exposures lstsq (map Fin (half_market X)) factor_df
  = Ok (map Fin half_market_betas, Fin 0).
Proof.
  intros Htable Hsolve. unfold estimate_factor_exposures, factor_table_of in *.
  cbv zeta. rewrite Htable, Hsolve. cbn [bind].
  rewrite (half_market_residuals X five_columns), np_mean_zeros; [reflexivity |].
  pose proof design_not_empty. destruct X; [congruence | simpl; lia].
Qed.
End HalfMarket.



(** * Further properties of the pipeline *)

(** ** Tail Risk Estimator: errors, edge cases and order *)

Lemma np_quantile_invalid (r : list float64) (q : float64) :
  (forall qv, q = Fin qv -> ~ 0 <= qv <= 1) ->
  np_quantile r q = Raise ValueError.
Proof.
  intros Hbad. destruct q as [qv | | |]; try reflexivity.
  unfold np_quantile.
  destruct (Rle_dec 0 qv) as [H0 | H0]; [| rewrite (Rleb_false 0 qv) by lra; reflexivity].
  destruct (Rle_dec qv 1) as [H1 | H1].
  - exfalso. apply (Hbad qv eq_refl). lra.
  - rewrite (Rleb_false qv 1) by lra. rewrite andb_false_r. reflexivity.
Qed.



Lemma existsb_isnan_In (r : list float64) : In NaN r -> existsb isnan r = true.
Proof.
  intros H. apply existsb_exists. exists NaN. auto.
Qed.

Lemma filter_ltb_nan (r : list float64) : filter (fun x => ltb x NaN) r = [].
Proof.
  induction r as [| x r IH]; [reflexivity |]. simpl.
  destruct x; simpl; exact IH.
Qed.

(** X2: a [NaN] among the observations makes both the value at risk and
    the expected shortfall [NaN], whatever the other observations are. *)
Theorem compute_var_es_nan_observation :
  forall (r : list float64) (c : float64),
    valid_confidence c -> In NaN r ->
    compute_var_es r c = Ok (NaN, NaN).
Proof.
  intros r c (cv & -> & Hcv) Hin.
  assert (Hq : np_quantile r (sub (Fin 1) (Fin cv)) = Ok NaN).
  { change (sub (Fin 1) (Fin cv)) with (Fin (1 + - cv)).
    rewrite np_quantile_nonempty; [| intros E; rewrite E in Hin; contradiction | lra].
    rewrite existsb_isnan_In by exact Hin. reflexivity. }
  rewrite (compute_var_es_unfold _ _ _ Hq), filter_ltb_nan. reflexivity.
Qed.

Lemma compute_var_es_nan_observation_witness :
  compute_var_es [Fin (1 / 100); NaN] default_confidence = Ok (NaN, NaN).
Proof.
  apply compute_var_es_nan_observation.
  - exists (95 / 100). split; [reflexivity | lra].
  - right. left. reflexivity.
Defined.

Lemma sorted_nth_le (s : list R) :
  Sorted Rle s ->
  forall i j, (i <= j)%nat -> (j < length s)%nat -> nth i s 0 <= nth j s 0.
Proof.
  intros Hs.
  assert (T : Relations_1.Transitive Rle) by (intros x y z; apply Rle_trans).
  apply (Sorted_StronglySorted T) in Hs.
  induction Hs as [| a s Hs IH Hall]; intros i j Hij Hj; [simpl in Hj; lia |].
  destruct i as [| i], j as [| j]; simpl in *; try lia.
  - lra.
  - rewrite Forall_forall in Hall. apply Hall, nth_In. lia.
  - apply IH; lia.
Qed.

Lemma filter_ltb_Fin (rs : list R) (t : R) :
  filter (fun x => ltb x (Fin t)) (map Fin rs)
  = map Fin (filter (fun x => Rltb x t) rs).
Proof.
  induction rs as [| x rs IH]; [reflexivity |]. simpl.
  destruct (Rltb x t); simpl; rewrite IH; reflexivity.
Qed.

(** What [compute_var_es] returns on a finite series, on a sorted
    arrangement [s] of it. *)
Lemma compute_var_es_finite (rs s : list R) (cv : R) :
  rs <> [] -> 0 <= cv <= 1 -> Sorted Rle s -> Permutation s rs ->
  compute_var_es (map Fin rs) (Fin cv)
  = Ok (Fin (- interpolated_quantile s (1 - cv)),
        match filter (fun x => Rltb x (interpolated_quantile s (1 - cv))) rs with
        | [] => NaN
        | tail => neg (np_mean (map Fin tail))
        end).
Proof.
  intros Hne Hcv Hs Hp.
  assert (Hq : np_quantile (map Fin rs) (sub (Fin 1) (Fin cv))
               = Ok (Fin (interpolated_quantile s (1 - cv)))).
  { change (sub (Fin 1) (Fin cv)) with (Fin (1 + - cv)).
    replace (1 + - cv) with (1 - cv) by ring.
    apply np_quantile_finite; auto. lra. }
  rewrite (compute_var_es_unfold _ _ _ Hq), filter_ltb_Fin. cbn [neg].
  destruct (filter _ rs); reflexivity.
Qed.

(** The interpolated quantile is a mixture of two neighbours of the
    sorted sample, or one element of it. *)
Lemma interpolated_quantile_cases (s : list R) (q : R) :
  s <> [] -> 0 <= q <= 1 ->
  exists k g,
    (k < length s)%nat /\ 0 <= g < 1 /\
    INR k + g = INR (length s - 1) * q /\
    ((S k < length s)%nat /\
     interpolated_quantile s q = nth k s 0 + g * (nth (S k) s 0 - nth k s 0)
     \/ g = 0 /\ interpolated_quantile s q = nth k s 0).
Proof.
  intros Hne [Hq0 Hq1].
  set (n := length s).
  assert (Hn : (1 <= n)%nat) by (destruct s; [congruence | simpl in n; lia]).
  set (h := INR (n - 1) * q).
  assert (Hh : 0 <= h <= INR (n - 1)).
  { pose proof (pos_INR (n - 1)). unfold h. split; nra. }
  pose proof (floor_nat_spec h (proj1 Hh)) as Hfl.
  set (k := Z.to_nat (Int_part h)) in *.
  assert (Hk : (k <= n - 1)%nat) by (apply INR_le; lra).
  exists k, (h - INR k). split; [lia |]. split; [lra |]. split; [fold h; lra |].
  unfold interpolated_quantile. fold n h k.
  destruct (Nat.eq_dec k (n - 1)) as [Heq | Hlt].
  - right. assert (Hg : h - INR k = 0) by (rewrite Heq in *; lra).
    split; [exact Hg |]. rewrite Hg. ring.
  - left. split; [lia | reflexivity].
Qed.

Lemma interpolated_quantile_bounds (s : list R) (q lo hi : R) :
  s <> [] -> 0 <= q <= 1 ->
  (forall x, In x s -> lo <= x <= hi) ->
  lo <= interpolated_quantile s q <= hi.
Proof.
  intros Hne Hq Hb.
  destruct (interpolated_quantile_cases s q Hne Hq)
    as (k & g & Hk & Hg & _ & [[HSk ->] | [_ ->]]).
  - pose proof (Hb _ (nth_In s 0 Hk)) as Ha.
    pose proof (Hb _ (nth_In s 0 HSk)) as Hb'.
    set (a := nth k s 0) in *. set (b := nth (S k) s 0) in *.
    assert (0 <= (1 - g) * (a - lo)) by (apply Rmult_le_pos; lra).
    assert (0 <= g * (b - lo)) by (apply Rmult_le_pos; lra).
    assert (0 <= (1 - g) * (hi - a)) by (apply Rmult_le_pos; lra).
    assert (0 <= g * (hi - b)) by (apply Rmult_le_pos; lra).
    split; lra.
  - apply Hb, nth_In, Hk.
Qed.



Lemma interpolated_quantile_monotone (s : list R) (q1 q2 : R) :
  Sorted Rle s -> s <> [] -> 0 <= q1 -> q1 <= q2 -> q2 <= 1 ->
  interpolated_quantile s q1 <= interpolated_quantile s q2.
Proof.
  intros Hs Hne H0 H12 H1.
  destruct (interpolated_quantile_cases s q1 Hne) as (k1 & g1 & Hk1 & Hg1 & He1 & Hv1);
    [lra |].
  destruct (interpolated_quantile_cases s q2 Hne) as (k2 & g2 & Hk2 & Hg2 & He2 & Hv2);
    [lra |].
  pose proof (pos_INR (length s - 1)) as HN.
  assert (Hle : INR k1 + g1 <= INR k2 + g2) by (rewrite He1, He2; nra).
  assert (Hk : (k1 <= k2)%nat).
  { destruct (le_lt_dec k1 k2) as [H | H]; [exact H | exfalso].
    assert (INR k2 + 1 <= INR k1).
    { rewrite <- S_INR. apply le_INR. lia. }
    lra. }
  destruct (Nat.eq_dec k1 k2) as [Heq | Hneq].
  - subst k2. assert (Hg : g1 <= g2) by lra.
    destruct Hv1 as [[HS1 ->] | [Hz1 ->]], Hv2 as [[HS2 ->] | [Hz2 ->]].
    + pose proof (sorted_nth_le s Hs k1 (S k1) (Nat.le_succ_diag_r k1) HS1).
      nra.
    + assert (g1 = 0) by lra. subst g1. lra.
    + pose proof (sorted_nth_le s Hs k1 (S k1) (Nat.le_succ_diag_r k1) HS2).
      nra.
    + lra.
  - assert (Hlt : (S k1 <= k2)%nat) by lia.
    assert (Hmid : interpolated_quantile s q1 <= nth k2 s 0).
    { destruct Hv1 as [[HS1 ->] | [Hz1 ->]].
      - pose proof (sorted_nth_le s Hs k1 (S k1) (Nat.le_succ_diag_r k1) HS1).
        pose proof (sorted_nth_le s Hs (S k1) k2 Hlt Hk2). nra.
      - apply sorted_nth_le; [exact Hs | lia | exact Hk2]. }
    destruct Hv2 as [[HS2 ->] | [Hz2 ->]]; [| exact Hmid].
    pose proof (sorted_nth_le s Hs k2 (S k2) (Nat.le_succ_diag_r k2) HS2). nra.
Qed.



Lemma filter_Rltb_none (rs : list R) (t : R) :
  (forall x, In x rs -> t <= x) -> filter (fun x => Rltb x t) rs = [].
Proof.
  intros H. induction rs as [| x rs IH]; [reflexivity |]. simpl.
  rewrite Rltb_false by (apply H; left; reflexivity).
  apply IH. intros y Hy. apply H. right. exact Hy.
Qed.



(** X6: on a series whose observations all have the same finite value
    [r], a single observation included, the value at risk is [- r] and the
    expected shortfall is [NaN]. *)
Theorem compute_var_es_constant_series :
  forall (rs : list R) (r cv : R),
    rs <> [] -> 0 <= cv <= 1 ->
    (forall x, In x rs -> x = r) ->
    compute_var_es (map Fin rs) (Fin cv) = Ok (Fin (- r), NaN).
Proof.
  intros rs r cv Hne Hcv Hall.
  destruct (np_sort_Fin rs) as (s & _ & Hs & Hp).
  assert (Hq : interpolated_quantile s (1 - cv) = r).
  { apply Rle_antisym; apply (interpolated_quantile_bounds s (1 - cv) r r).
    - intros E. rewrite E in Hp. apply Permutation_nil in Hp. congruence.
    - lra.
    - intros x Hx. rewrite (Hall x) by (eapply Permutation_in; eauto). lra.
    - intros E. rewrite E in Hp. apply Permutation_nil in Hp. congruence.
    - lra.
    - intros x Hx. rewrite (Hall x) by (eapply Permutation_in; eauto). lra. }
  rewrite (compute_var_es_finite rs s cv Hne Hcv Hs Hp), Hq.
  rewrite filter_Rltb_none; [reflexivity |].
  intros x Hx. rewrite (Hall x Hx). lra.
Qed.

Lemma compute_var_es_constant_series_witness :
  compute_var_es (map Fin [1 / 100]) default_confidence
  = Ok (Fin (- (1 / 100)), NaN).
Proof.
  apply (compute_var_es_constant_series [1 / 100] (1 / 100) (95 / 100)).
  - discriminate.
  - lra.
  - intros x [<- | []]. reflexivity.
Defined.

Lemma filter_permutation {A : Type} (f : A -> bool) (l l' : list A) :
  Permutation l l' -> Permutation (filter f l) (filter f l').
Proof.
  induction 1 as [| x l l' _ IH | x y l | l l' l'' _ IH1 _ IH2]; simpl.
  - constructor.
  - destruct (f x); [constructor |]; exact IH.
  - destruct (f x), (f y); try reflexivity. apply perm_swap.
  - etransitivity; eauto.
Qed.

Lemma Rsum_permutation (l l' : list R) : Permutation l l' -> Rsum l = Rsum l'.
Proof.
  unfold Rsum. induction 1; simpl; lra.
Qed.

Lemma np_mean_permutation (l l' : list R) :
  Permutation l l' -> np_mean (map Fin l) = np_mean (map Fin l').
Proof.
  intros Hp. unfold np_mean, np_sum.
  rewrite !fold_left_add_Fin, !fold_left_Rplus, !length_map.
  rewrite (Rsum_permutation _ _ Hp), (Permutation_length Hp). reflexivity.
Qed.



(** ** Return Calculator: errors, first date, order *)

Lemma has_duplicate_entries_spec (prices : list price_row) :
  has_duplicate_entries prices = true <-> repeated_entry prices.
Proof.
  unfold repeated_entry. induction prices as [| p rest IH].
  - split; [discriminate |]. intros (i & j & ? & ? & _ & Hi & _).
    destruct i; discriminate.
  - cbn [has_duplicate_entries]. rewrite orb_true_iff, IH. split.
    + intros [Hex | (i & j & p' & q & Hij & Hi & Hj & Hd & Ha)].
      * apply existsb_exists in Hex as (q & Hq & Hkey).
        unfold price_key_eqb in Hkey. apply andb_true_iff in Hkey as [Hd Ha].
        apply String.eqb_eq in Hd, Ha.
        destruct (In_nth_error _ _ Hq) as [j Hj].
        exists 0%nat, (S j), p, q. simpl. repeat split; auto. lia.
      * exists (S i), (S j), p', q. simpl. repeat split; auto. lia.
    + intros (i & j & p' & q & Hij & Hi & Hj & Hd & Ha).
      destruct j as [| j]; [lia |]. simpl in Hj. destruct i as [| i].
      * simpl in Hi. injection Hi as <-. left. apply existsb_exists.
        exists q. split; [eapply nth_error_In; eauto |].
        unfold price_key_eqb. rewrite Hd, Ha, !String.eqb_refl. reflexivity.
      * simpl in Hi. right. exists i, j, p', q. repeat split; auto. lia.
Qed.



Lemma sorted_consecutive (l : list date) (d1 d2 : date) :
  Sorted date_lt l -> consecutive l d1 d2 -> date_lt d1 d2.
Proof.
  intros Hs (i & Hi & HSi). revert i Hi HSi.
  induction Hs as [| a l Hs IH Hhd]; intros i Hi HSi; [destruct i; discriminate |].
  destruct i as [| i]; simpl in Hi, HSi.
  - injection Hi as <-. destruct l as [| b l]; [discriminate |].
    simpl in HSi. injection HSi as <-. inversion Hhd. assumption.
  - apply (IH i); assumption.
Qed.

Lemma table_dates_sorted (prices : list price_row) :
  Sorted date_lt (table_dates prices).
Proof. apply sorted_unique_sorted, String.compare_antisym. Qed.

Lemma date_lt_irrefl (d : date) : ~ date_lt d d.
Proof.
  unfold date_lt. rewrite (proj2 (string_compare_eq d d) eq_refl). discriminate.
Qed.

(** A date of the output has a date of the table immediately before it. *)
Lemma output_date_has_predecessor (prices : list price_row)
    (out : list return_row) (d : date) :
  compute_asset_returns prices = Ok out ->
  In d (map r_date out) ->
  exists d',
    consecutive (table_dates prices) d' d /\
    forall a, In a (table_assets prices) ->
              cell prices d a <> NaN /\ cell prices d' a <> NaN.
Proof.
  intros Hrun Hd. apply compute_asset_returns_inv in Hrun as [_ ->].
  apply output_date_row in Hd as (Hcols & vals & Hin).
  destruct (retained_date prices d vals Hcols Hin) as (d' & Hc & _ & Hcells).
  exists d'. auto.
Qed.

(** X9: the earliest date of the price table never carries a return,
    for any asset. *)
Theorem compute_asset_returns_drops_first_date :
  forall (prices : list price_row) (out : list return_row) (d0 : date),
    compute_asset_returns prices = Ok out ->
    (forall d, In d (map pr_date prices) -> d = d0 \/ date_lt d0 d) ->
    ~ In d0 (map r_date out).
Proof.
  intros prices out d0 Hrun Hfirst Hin.
  destruct (output_date_has_predecessor prices out d0 Hrun Hin) as (d' & Hc & _).
  pose proof (sorted_consecutive _ _ _ (table_dates_sorted prices) Hc) as Hlt.
  destruct Hc as (i & Hi & _).
  assert (Hd' : In d' (map pr_date prices)).
  { apply table_dates_In. eapply nth_error_In; eauto. }
  destruct (Hfirst d' Hd') as [-> | Hgt].
  - exact (date_lt_irrefl d0 Hlt).
  - exact (date_lt_irrefl d0 (string_compare_trans _ _ _ Hgt Hlt)).
Qed.

Lemma compute_asset_returns_drops_first_date_witness :
  ~ In "2020-01-01"%string (map r_date returns_gap).
Proof.
  apply (compute_asset_returns_drops_first_date prices_gap returns_gap).
  - exact prices_gap_returns.
  - simpl. intros d Hd.
    repeat (destruct Hd as [<- | Hd]; [(left; reflexivity) || (right; reflexivity) |]).
    contradiction.
Defined.

Lemma filter_rows_sorted (P : date * list float64 -> bool)
    (rws : list (date * list float64)) :
  StronglySorted date_lt (map fst rws) ->
  StronglySorted date_lt (map fst (filter P rws)).
Proof.
  induction rws as [| r rws IH]; intros Hs; [constructor |].
  simpl in Hs. inversion Hs as [| ? ? Hs' Hall]; subst.
  simpl. destruct (P r); [| apply IH, Hs'].
  simpl. constructor; [apply IH, Hs' |].
  rewrite Forall_forall in *. intros d Hd. apply Hall.
  apply in_map_iff in Hd as (r' & <- & Hr'). apply filter_In in Hr' as [Hr' _].
  apply in_map, Hr'.
Qed.

(** X10: the returns of every asset come out in strictly ascending date
    order, so an asset has at most one return per date. *)
Theorem compute_asset_returns_ascending_dates :
  forall (prices : list price_row) (out : list return_row) (a : asset),
    compute_asset_returns prices = Ok out ->
    StronglySorted date_lt (map r_date (returns_of out a)).
Proof.
  intros prices out a Hrun.
  apply compute_asset_returns_inv in Hrun as [_ ->].
  destruct (in_dec string_dec a (table_assets prices)) as [Ha | Ha].
  - destruct (In_nth_error _ _ Ha) as [j Hj].
    rewrite (melt_returns_of _ _ j a (table_assets_NoDup prices) Hj).
    rewrite map_map. cbn [r_date]. apply filter_rows_sorted.
    rewrite ratio_rows_dates. apply Sorted_StronglySorted.
    + intros x y z. apply string_compare_trans.
    + apply table_dates_sorted.
  - set (kept := filter _ (ratio_rows _ _ _ _)).
    replace (returns_of _ a) with (@nil return_row); [constructor |].
    symmetry. unfold returns_of.
    match goal with |- filter ?f ?l = [] => destruct (filter f l) as [| r t] eqn:E end;
      [reflexivity | exfalso].
    assert (Hr : In r (r :: t)) by (left; reflexivity).
    rewrite <- E in Hr. apply filter_In in Hr as [Hr Heq].
    apply String.eqb_eq in Heq. apply Ha.
    assert (Hin : In a (map r_asset (melt {| columns := table_assets prices;
                                             rows := kept |})))
      by (apply in_map_iff; exists r; auto).
    apply melt_assets in Hin. exact Hin.
Qed.

Lemma compute_asset_returns_ascending_dates_witness :
  StronglySorted date_lt (map r_date (returns_of returns_gap "A"%string)).
Proof.
  apply (compute_asset_returns_ascending_dates prices_gap).
  exact prices_gap_returns.
Defined.

(** X11: one asset of the table with fewer than two price rows leaves the
    output empty for every asset. *)
Theorem compute_asset_returns_short_asset_empties_output :
  forall (prices : list price_row) (out : list return_row) (a : asset),
    compute_asset_returns prices = Ok out ->
    In a (map pr_asset prices) ->
    (observations prices a < 2)%nat ->
    out = [].
Proof.
  intros prices out a Hrun Ha Hobs.
  destruct out as [| r out']; [reflexivity | exfalso].
  destruct (output_date_has_predecessor prices _ (r_date r) Hrun)
    as (d' & Hc & Hcells); [left; reflexivity |].
  apply table_assets_In in Ha. destruct (Hcells a Ha) as [Hn1 Hn2].
  destruct (cell_not_nan _ _ _ Hn1) as (p1 & Hp1 & Hd1 & Ha1).
  destruct (cell_not_nan _ _ _ Hn2) as (p2 & Hp2 & Hd2 & Ha2).
  pose proof (consecutive_distinct _ _ _ (table_dates_NoDup prices) Hc) as Hne.
  assert (H2 : (2 <= observations prices a)%nat).
  { unfold observations. apply (two_distinct_members _ p1 p2).
    - apply filter_In. split; [exact Hp1 | apply String.eqb_eq, Ha1].
    - apply filter_In. split; [exact Hp2 | apply String.eqb_eq, Ha2].
    - intros ->. congruence. }
  lia.
Qed.

Lemma prices_short_returns : compute_asset_returns prices_short = Ok [].
Proof. unfold compute_asset_returns, prices_short. evaluate. reflexivity. Qed.

Lemma compute_asset_returns_short_asset_empties_output_witness :
  compute_asset_returns prices_short = Ok [] /\ @nil return_row = [].
Proof.
  split; [exact prices_short_returns |].
  apply (compute_asset_returns_short_asset_empties_output
           prices_short [] "B"%string).
  - exact prices_short_returns.
  - simpl. auto.
  - unfold observations. simpl. lia.
Defined.

(** ** Return Calculator: the returns of a complete table *)

(** The rows one asset gets from the log-ratio frame of a table with
    positive prices. *)
Lemma ratio_rows_column (cellf : date -> asset -> float64) (cols : list asset)
    (j : nat) (a : asset) (dates : list date) :
  nth_error cols j = Some a ->
  (forall d, In d dates -> exists x, cellf d a = Fin x /\ 0 < x) ->
  forall dp,
    (exists y, cellf dp a = Fin y /\ 0 < y) ->
    map (fun r => nth j (snd r) NaN) (ratio_rows cellf cols (cellf dp) dates)
    = map Fin (log_returns (fin_value (cellf dp a))
                           (map (fun d => fin_value (cellf d a)) dates)).
Proof.
  intros Hj. induction dates as [| d rest IH]; intros Hpos dp Hdp; [reflexivity |].
  cbn [ratio_rows map log_returns snd]. f_equal.
  - rewrite (nth_map_column (fun b => log_ratio (cellf d b) (cellf dp b)) _ _ _ Hj).
    destruct (Hpos d (or_introl eq_refl)) as (x & -> & Hx).
    destruct Hdp as (y & -> & Hy). apply log_ratio_positive; assumption.
  - apply IH.
    + intros d' Hd'. apply Hpos. right. exact Hd'.
    + apply Hpos. left. reflexivity.
Qed.

Lemma ln_quotient (x y : R) : 0 < x -> 0 < y -> ln (x / y) = ln x - ln y.
Proof.
  intros Hx Hy. unfold Rdiv.
  rewrite ln_mult by (try apply Rinv_0_lt_compat; assumption).
  rewrite ln_Rinv by assumption. ring.
Qed.

Lemma last_cons_default {A : Type} (x d : A) (l : list A) :
  last (x :: l) d = last l x.
Proof.
  revert x d. induction l as [| y l IH]; intros x d; [reflexivity |].
  change (last (x :: y :: l) d) with (last (y :: l) d).
  rewrite (IH y d), (IH y x). reflexivity.
Qed.

Lemma last_positive (xs : list R) (x0 : R) :
  0 < x0 -> Forall (fun x => 0 < x) xs -> 0 < last xs x0.
Proof.
  intros H0 Hall. revert x0 H0.
  induction Hall as [| y ys Hy _ IH]; intros x0 H0; [exact H0 |].
  rewrite (last_cons_default y x0). apply IH, Hy.
Qed.

Lemma log_returns_sum (xs : list R) :
  forall x0, 0 < x0 -> Forall (fun x => 0 < x) xs ->
             Rsum (log_returns x0 xs) = ln (last xs x0 / x0).
Proof.
  unfold Rsum. induction xs as [| x xs IH]; intros x0 H0 Hall.
  - simpl. unfold Rdiv. rewrite Rinv_r by lra. symmetry. apply ln_1.
  - inversion Hall as [| ? ? Hx Hxs]; subst.
    cbn [log_returns fold_right]. rewrite (IH x Hx Hxs).
    pose proof (last_positive xs x Hx Hxs) as Hl.
    rewrite (last_cons_default x x0).
    rewrite !ln_quotient by lra. lra.
Qed.

(** The returns of one asset on a complete table with positive prices. *)
Lemma complete_table_returns (prices : list price_row) (a : asset)
    (d0 : date) (rest : list date) :
  has_duplicate_entries prices = false ->
  complete_positive prices ->
  In a (map pr_asset prices) ->
  table_dates prices = d0 :: rest ->
  exists out,
    compute_asset_returns prices = Ok out /\
    map r_date (returns_of out a) = rest /\
    map r_asset (returns_of out a) = map (fun _ => a) rest /\
    map r_return (returns_of out a)
    = map Fin (log_returns (price_of prices a d0) (map (price_of prices a) rest)).
Proof.
  intros Hdup Hc Ha Hdates. eexists.
  split; [apply compute_asset_returns_eq, Hdup |].
  assert (Ha' : In a (table_assets prices)) by (apply table_assets_In, Ha).
  destruct (In_nth_error _ _ Ha') as [j Hj].
  rewrite (melt_returns_of _ _ j a (table_assets_NoDup prices) Hj).
  assert (Hpos : forall d b, In d (table_dates prices) -> In b (table_assets prices) ->
                             exists x, cell prices d b = Fin x /\ 0 < x).
  { intros d b Hd Hb.
    apply Hc; [apply table_dates_In, Hd | apply table_assets_In, Hb]. }
  rewrite Hdates in *. cbn [ratio_rows filter snd].
  rewrite first_row_dropped by (intros E; rewrite E in Ha'; contradiction).
  cbn [negb]. rewrite ratio_rows_complete.
  - rewrite !map_map. cbn [r_date r_asset r_return].
    split; [apply ratio_rows_dates |]. split.
    + rewrite <- (ratio_rows_dates (cell prices) (table_assets prices) rest
                                   (cell prices d0)) at 2.
      rewrite map_map. reflexivity.
    + unfold price_of.
      apply (ratio_rows_column (cell prices) (table_assets prices) j a rest Hj).
      * intros d Hd. apply Hpos; [right; exact Hd | exact Ha'].
      * apply Hpos; [left; reflexivity | exact Ha'].
  - intros d b Hd Hb. apply Hpos; [right; exact Hd | exact Hb].
  - intros b Hb. apply Hpos; [left; reflexivity | exact Hb].
Qed.


Lemma prices_full_complete : complete_positive prices_full.
Proof.
  intros d a Hd Ha. unfold prices_full in *. simpl in Hd, Ha.
  repeat (destruct Hd as [<- | Hd]);
    try contradiction;
    repeat (destruct Ha as [<- | Ha]);
    try contradiction;
    eexists; (split; [reflexivity | lra]).
Qed.


(** ** Portfolio Aggregator: averages *)

Lemma weighted_sum_bounds (rq : list (R * R)) (lo hi : R) :
  (forall x, In x rq -> 0 <= snd x /\ lo <= fst x <= hi) ->
  lo * Rsum (map snd rq) <= Rsum (map (fun x => fst x * snd x) rq)
  <= hi * Rsum (map snd rq).
Proof.
  unfold Rsum. induction rq as [| [r q] rq IH]; intros H; simpl; [lra |].
  destruct (H (r, q) (or_introl eq_refl)) as [Hq Hr]. simpl in Hq, Hr.
  destruct IH as [IH1 IH2]; [intros x Hx; apply H; right; exact Hx |].
  split; nra.
Qed.



Lemma list_prod_map_r {A B C : Type} (f : B -> C) (l : list A) (l' : list B) :
  list_prod l (map f l') = map (fun ab => (fst ab, f (snd ab))) (list_prod l l').
Proof.
  induction l as [| a l IH]; [reflexivity |].
  cbn [list_prod]. rewrite map_app, IH, !map_map. reflexivity.
Qed.

Lemma group_members_scaled (returns : list return_row)
    (positions : list position_row) (k : R) (d : date) (f : Z) :
  group_members returns (map (scale_position k) positions) d f
  = map (fun rp => (fst rp, scale_position k (snd rp)))
        (group_members returns positions d f).
Proof.
  unfold group_members. rewrite list_prod_map_r, filter_map_comm. reflexivity.
Qed.

Lemma merge_keys_scaled (returns : list return_row)
    (positions : list position_row) (k : R) :
  map group_key (merge_positions returns (map (scale_position k) positions))
  = map group_key (merge_positions returns positions).
Proof.
  rewrite !merge_positions_prod, list_prod_map_r, filter_map_comm, !map_map.
  reflexivity.
Qed.

Lemma isfinite_fin_value (a : float64) : isfinite a = true -> a = Fin (fin_value a).
Proof. destruct a; simpl; intros H; try discriminate; reflexivity. Qed.

Lemma group_members_In (returns : list return_row)
    (positions : list position_row) (d : date) (f : Z)
    (rp : return_row * position_row) :
  In rp (group_members returns positions d f) ->
  In (fst rp) returns /\ In (snd rp) positions.
Proof.
  intros H. apply filter_In in H as [H _]. destruct rp as [r p].
  apply in_prod_iff in H. exact H.
Qed.

(** On finite tables every group is finite. *)
Lemma finite_members (returns : list return_row)
    (positions : list position_row) (d : date) (f : Z) :
  (forall r, In r returns -> isfinite (r_return r) = true) ->
  (forall p, In p positions -> isfinite (quantity p) = true) ->
  finite_group (group_members returns positions d f)
               (member_values (group_members returns positions d f)).
Proof.
  intros Hr Hq. unfold finite_group, member_values. rewrite map_map.
  apply map_ext_in. intros rp Hrp. cbn [fst snd].
  destruct (group_members_In _ _ _ _ _ Hrp) as [H1 H2].
  rewrite <- (isfinite_fin_value _ (Hr _ H1)), <- (isfinite_fin_value _ (Hq _ H2)).
  reflexivity.
Qed.

Lemma Rsum_scaled {A : Type} (g : A -> R) (k : R) (l : list A) :
  Rsum (map (fun x => g x * k) l) = Rsum (map g l) * k.
Proof.
  unfold Rsum. induction l as [| x l IH]; simpl; [ring |]. rewrite IH. ring.
Qed.

Lemma div_scaled (W Q k : R) :
  0 < k -> div (Fin (W * k)) (Fin (Q * k)) = div (Fin W) (Fin Q).
Proof.
  intros Hk. simpl. destruct (Req_dec_T Q 0) as [-> | HQ].
  - rewrite !Reqb_true by ring. unfold inf_signed.
    destruct (Rlt_dec 0 W) as [HW | HW].
    + rewrite !(Rltb_true 0) by nra. reflexivity.
    + rewrite !(Rltb_false 0) by nra.
      destruct (Rlt_dec W 0) as [HW' | HW'].
      * rewrite !(Rltb_true _ 0) by nra. reflexivity.
      * rewrite !(Rltb_false _ 0) by nra. reflexivity.
  - rewrite !Reqb_false by nra. f_equal. field. lra.
Qed.



Lemma add_zero_r (a : float64) : add a (Fin 0) = a.
Proof. destruct a; simpl; auto. f_equal. lra. Qed.

Lemma fold_add_filter {A : Type} (f : A -> float64) (keep : A -> bool)
    (l : list A) :
  (forall x, In x l -> keep x = false -> f x = NaN \/ f x = Fin 0) ->
  forall acc,
    fold_left add (filter (fun a => negb (isnan a)) (map f l)) acc
    = fold_left add (filter (fun a => negb (isnan a)) (map f (filter keep l))) acc.
Proof.
  induction l as [| x l IH]; intros H acc; [reflexivity |].
  assert (Hl : forall y, In y l -> keep y = false -> f y = NaN \/ f y = Fin 0)
    by (intros y Hy; apply H; right; exact Hy).
  cbn [map filter]. destruct (keep x) eqn:Hk.
  - cbn [map filter]. destruct (negb (isnan (f x))); cbn [fold_left]; apply IH, Hl.
  - destruct (H x (or_introl eq_refl) Hk) as [-> | ->]; cbn [isnan negb fold_left].
    + apply IH, Hl.
    + rewrite add_zero_r. apply IH, Hl.
Qed.

Lemma series_sum_filter {A : Type} (f : A -> float64) (keep : A -> bool)
    (l : list A) :
  (forall x, In x l -> keep x = false -> f x = NaN \/ f x = Fin 0) ->
  series_sum (map f l) = series_sum (map f (filter keep l)).
Proof.
  intros H. unfold series_sum, np_sum. apply fold_add_filter, H.
Qed.

Lemma is_zero_quantity (q : float64) : is_zero q = true -> q = Fin 0.
Proof.
  destruct q as [x | | |]; simpl; try discriminate. unfold Reqb.
  destruct (Req_dec_T x 0); [intros _; congruence | discriminate].
Qed.



(** ** Report Renderer: the shape of the curve *)

(** The curve of a fund with finite returns. *)
Lemma plot_cumulative_returns_finite (portfolio_returns : list portfolio_row)
    (fund : Z) (rs : list R) :
  map portfolio_return
      (sort_by String.compare pf_date (fund_rows portfolio_returns fund))
  = map Fin rs ->
  plot_cumulative_returns portfolio_returns fund
  = LinePlot
      (map pf_date (sort_by String.compare pf_date (fund_rows portfolio_returns fund)))
      (map (fun s => Fin (Rtrigo_def.exp s - 1)) (running Rplus 0 rs)).
Proof.
  intros Hrs. unfold plot_cumulative_returns.
  fold (fund_rows portfolio_returns fund).
  rewrite Hrs, series_cumsum_Fin, map_map. reflexivity.
Qed.



(** Compounding the log returns of a price series gives back the prices
    relative to the first one. *)
Lemma exp_running_log_returns (xs : list R) :
  forall x0 a,
    0 < x0 -> Forall (fun x => 0 < x) xs ->
    map Rtrigo_def.exp (running Rplus a (log_returns x0 xs))
    = map (fun x => Rtrigo_def.exp a * (x / x0)) xs.
Proof.
  induction xs as [| x xs IH]; intros x0 a H0 Hall; [reflexivity |].
  inversion Hall as [| ? ? Hx Hxs]; subst.
  assert (Hq : 0 < x / x0) by (apply Rdiv_lt_0_compat; assumption).
  cbn [log_returns running map]. rewrite exp_plus, exp_ln by exact Hq. f_equal.
  rewrite (IH x (a + ln (x / x0)) Hx Hxs).
  apply map_ext. intros y. rewrite exp_plus, exp_ln by exact Hq. field. lra.
Qed.

(** ** From prices to the curve: a fund with a single holding *)

Lemma sorted_unique_sorted_input {K : Type} (cmp : K -> K -> comparison)
    (l : list K) :
  Sorted (fun a b => cmp a b = Lt) l -> sorted_unique cmp l = l.
Proof.
  induction 1 as [| k l Hs IH Hhd]; [reflexivity |].
  unfold sorted_unique in *. cbn [fold_right]. rewrite IH.
  destruct Hhd as [| k' l' Hlt]; [reflexivity |]. simpl. rewrite Hlt. reflexivity.
Qed.

Lemma merge_single_position (out : list return_row) (pos : position_row) :
  merge_positions out [pos]
  = map (fun r => merged_of (r, pos)) (returns_of out (pos_asset pos)).
Proof.
  unfold merge_positions, returns_of.
  induction out as [| r out IH]; [reflexivity |].
  cbn [flat_map]. rewrite IH. cbn [filter].
  destruct (String.eqb (r_asset r) (pos_asset pos)); reflexivity.
Qed.

Lemma get_group_unique (l : list merged_row) (m : merged_row) :
  NoDup (map group_key l) -> In m l -> get_group l (group_key m) = [m].
Proof.
  unfold get_group. induction l as [| x l IH]; intros Hnd Hin; [contradiction |].
  simpl in Hnd. inversion Hnd as [| ? ? Hx Hl]; subst. cbn [filter].
  destruct Hin as [-> | Hin].
  - rewrite (proj2 (key_eqb_eq _ _) eq_refl). f_equal.
    apply filter_nil_existsb.
    destruct (existsb _ l) eqn:E; [exfalso | reflexivity].
    apply existsb_exists in E as (y & Hy & Hk). apply key_eqb_eq in Hk.
    apply Hx. rewrite <- Hk. apply in_map, Hy.
  - destruct (key_eqb (group_key x) (group_key m)) eqn:E.
    + apply key_eqb_eq in E. exfalso. apply Hx. rewrite E. apply in_map, Hin.
    + apply IH; assumption.
Qed.

Lemma single_keys_sorted (rows : list return_row) (f : Z) :
  Sorted date_lt (map r_date rows) ->
  Sorted (fun k1 k2 => key_compare k1 k2 = Lt)
         (map (fun r => (r_date r, f)) rows).
Proof.
  induction rows as [| r rows IH]; intros Hs; [constructor |].
  simpl in Hs. inversion Hs as [| ? ? Hs' Hhd]; subst.
  simpl. constructor; [apply IH, Hs' |].
  destruct rows as [| r' rows]; [constructor |].
  simpl in Hhd. inversion Hhd as [| ? ? Hlt]; subst.
  simpl. constructor. unfold key_compare. simpl. unfold date_lt in Hlt.
  rewrite Hlt. reflexivity.
Qed.

(** The portfolio returns of a fund that holds one asset, in a finite
    non-zero quantity, are the returns of that asset. *)
Lemma build_portfolio_returns_single (out : list return_row)
    (f : Z) (a : asset) (q : R) :
  q <> 0 ->
  returns_of out a <> [] ->
  Sorted date_lt (map r_date (returns_of out a)) ->
  (forall r, In r (returns_of out a) -> isfinite (r_return r) = true) ->
  build_portfolio_returns
    out [ {| pos_fund_id := f; pos_asset := a; quantity := Fin q |} ]
  = Ok (map (fun r => {| pf_date := r_date r; pf_fund_id := f;
                         portfolio_return := r_return r |})
            (returns_of out a)).
Proof.
  intros Hq Hne Hs Hfin.
  set (pos := {| pos_fund_id := f; pos_asset := a; quantity := Fin q |}).
  unfold build_portfolio_returns. rewrite (merge_single_position out pos).
  cbn [pos_asset pos].
  set (rows := returns_of out a) in *.
  set (merged := map (fun r => merged_of (r, pos)) rows).
  assert (Hkeys : map group_key merged = map (fun r => (r_date r, f)) rows).
  { unfold merged. rewrite map_map. reflexivity. }
  pose proof (single_keys_sorted rows f Hs) as Hsorted.
  assert (Hnd : NoDup (map group_key merged)).
  { rewrite Hkeys.
    apply (sorted_NoDup key_compare key_compare_eq key_compare_trans), Hsorted. }
  destruct merged as [| m0 ms] eqn:Em.
  { unfold merged in Em. destruct rows; [congruence | discriminate]. }
  rewrite <- Em in *. f_equal.
  rewrite Hkeys, (sorted_unique_sorted_input key_compare _ Hsorted), map_map.
  apply map_ext_in. intros r Hr. cbn [fst snd]. f_equal.
  replace (r_date r, f) with (group_key (merged_of (r, pos))) by reflexivity.
  rewrite get_group_unique;
    [| exact Hnd
     | unfold merged; apply (in_map (fun r => merged_of (r, pos))), Hr].
  unfold weighted_average, series_sum, np_sum. cbn.
  pose proof (Hfin r Hr) as Hv. destruct (r_return r) as [v | | |]; try discriminate.
  cbn. rewrite Reqb_false by lra. f_equal. field. lra.
Qed.

Lemma fund_rows_all (rows : list return_row) (f : Z) :
  fund_rows (map (fun r => {| pf_date := r_date r; pf_fund_id := f;
                              portfolio_return := r_return r |}) rows) f
  = map (fun r => {| pf_date := r_date r; pf_fund_id := f;
                     portfolio_return := r_return r |}) rows.
Proof.
  unfold fund_rows. induction rows as [| r rows IH]; [reflexivity |].
  cbn [map filter pf_fund_id]. rewrite Z.eqb_refl, IH. reflexivity.
Qed.



(** ** Factor Exposure Estimator: exact fits and flat factors *)

Lemma map2_mul_Fin (u v : list R) :
  map2 mul (map Fin u) (map Fin v) = map Fin (map2 Rmult u v).
Proof.
  unfold map2. revert v. induction u as [| x u IH]; intros [| y v];
    try reflexivity.
  cbn [map combine fst snd mul]. f_equal. apply IH.
Qed.

(** The dot product of finite vectors is the dot product of the reals. *)
Lemma dot_Fin (u v : list R) : dot (map Fin u) (map Fin v) = Fin (Rdot u v).
Proof.
  unfold dot, np_sum, Rdot.
  rewrite map2_mul_Fin, fold_left_add_Fin, fold_left_Rplus. f_equal.
  unfold Rsum. lra.
Qed.

Lemma rss_of_rows (X : list (list R)) (g : list R -> R) (b : list R) :
  rss X (map g X) b
  = fold_right Rplus 0
      (map (fun row => (g row - Rdot row b) * (g row - Rdot row b)) X).
Proof.
  unfold rss. rewrite (map2_map_left (fun yi row => yi - Rdot row b)).
  apply (sum_squares_map (fun row => g row - Rdot row b)).
Qed.

Lemma sum_of_zero_squares {A : Type} (f : A -> R) (l : list A) :
  (forall a, In a l -> f a = 0) ->
  fold_right Rplus 0 (map (fun a => f a * f a) l) = 0.
Proof.
  induction l as [| x l IH]; intros H; simpl; [reflexivity |].
  rewrite IH by (intros a Ha; apply H; right; exact Ha).
  rewrite (H x (or_introl eq_refl)). ring.
Qed.

(** The residuals and alpha of finite data. *)
Lemma estimate_finite (lstsq : solver) (factor_df : list factor_row)
    (X : list (list R)) (y b : list R) (res : list R) :
  factor_table_of factor_df X ->
  lstsq (map (map Fin) X) (map Fin y) = Ok (map Fin b) ->
  map2 Rminus y (map (fun row => Rdot row b) X) = res ->
  estimate_factor_exposures lstsq (map Fin y) factor_df
  = Ok (map Fin b, np_mean (map Fin res)).
Proof.
  intros Htable Hsolve Hres. unfold estimate_factor_exposures, factor_table_of in *.
  cbv zeta. rewrite Htable, Hsolve. cbn [bind]. do 3 f_equal.
  subst res. unfold matvec, map2. rewrite !map_map.
  clear Hsolve Htable. revert y.
  induction X as [| row X IH]; intros [| yi y]; try reflexivity.
  cbn [map combine fst snd]. rewrite dot_Fin, IH. reflexivity.
Qed.



Lemma Rdot_zero_row (row b : list R) :
  (forall x, In x row -> x = 0) -> Rdot row b = 0.
Proof.
  unfold Rdot, map2. revert b. induction row as [| x row IH]; intros b H;
    [reflexivity |].
  destruct b as [| y b]; [reflexivity |].
  cbn [combine map fold_right fst snd].
  rewrite IH by (intros z Hz; apply H; right; exact Hz).
  rewrite (H x (or_introl eq_refl)). ring.
Qed.

Lemma rss_flat (X : list (list R)) (y b b' : list R) :
  (forall row, In row X -> forall x, In x row -> x = 0) ->
  rss X y b = rss X y b'.
Proof.
  intros Hflat. unfold rss. f_equal. unfold map2. apply map_ext_in.
  intros [yi row] Hin. apply in_combine_r in Hin. cbn [fst snd].
  rewrite !Rdot_zero_row by (apply Hflat, Hin). reflexivity.
Qed.

Lemma sum_squares_nonneg (u : list R) : 0 <= sum_squares u.
Proof.
  rewrite <- (map_id u). rewrite (sum_squares_map (fun x => x)).
  apply sum_of_squares_nonneg.
Qed.

Lemma flat_factors_is_lstsq (X : list (list R)) (y : list R) :
  (forall row, In row X -> forall x, In x row -> x = 0) ->
  is_lstsq X y zero_betas.
Proof.
  intros Hflat. split; [reflexivity |]. split.
  - intros b' _. rewrite (rss_flat X y zero_betas b' Hflat). lra.
  - intros b' _ _. replace (sum_squares zero_betas) with 0.
    + apply sum_squares_nonneg.
    + unfold sum_squares, zero_betas. rewrite Rdot_five. ring.
Qed.

Lemma residuals_flat (X : list (list R)) (b : list R) :
  (forall row, In row X -> forall x, In x row -> x = 0) ->
  forall y, length y = length X ->
            map2 Rminus y (map (fun row => Rdot row b) X) = y.
Proof.
  intros Hflat. unfold map2.
  induction X as [| row X IH]; intros [| yi y] Hlen; try discriminate;
    [reflexivity |].
  cbn [map combine fst snd]. f_equal.
  - rewrite Rdot_zero_row by (apply Hflat; left; reflexivity).
    unfold Rminus. rewrite Ropp_0. apply Rplus_0_r.
  - apply IH.
    + intros r Hr. apply Hflat. right. exact Hr.
    + simpl in Hlen. lia.
Qed.

(** X19: when every factor return is zero, the only coefficients a
    least-squares solver of least norm returns are zero, and alpha is the
    mean of the excess returns. *)
Theorem estimate_factor_exposures_flat_factors :
  forall (lstsq : solver) (factor_df : list factor_row)
         (X : list (list R)) (y b : list R),
    factor_table_of factor_df X ->
    (forall row, In row X -> forall x, In x row -> x = 0) ->
    length y = length X ->
    lstsq (map (map Fin) X) (map Fin y) = Ok (map Fin b) ->
    is_lstsq X y b ->
    b = zero_betas /\
    estimate_factor_exposures lstsq (map Fin y) factor_df
    = Ok (map Fin zero_betas, np_mean (map Fin y)).
Proof.
  intros lstsq factor_df X y b Htable Hflat Hlen Hsolve (Hb & _ & Hnorm).
  assert (Hzero : b = zero_betas).
  { pose proof (Hnorm zero_betas eq_refl (rss_flat X y zero_betas b Hflat)) as Hle.
    five_cells b Hb. unfold sum_squares, zero_betas in *.
    rewrite !Rdot_five in Hle.
    assert (r = 0) by nra. assert (r0 = 0) by nra. assert (r1 = 0) by nra.
    assert (r2 = 0) by nra. assert (r3 = 0) by nra. subst. reflexivity. }
  split; [exact Hzero |]. subst b.
  apply (estimate_finite lstsq factor_df X y zero_betas y Htable Hsolve).
  apply residuals_flat; assumption.
Qed.

Lemma estimate_factor_exposures_flat_factors_witness :
  estimate_factor_exposures zero_solver (map Fin [1 / 100]) factors_flat
  = Ok (map Fin zero_betas, np_mean (map Fin [1 / 100])).
Proof.
  apply (estimate_factor_exposures_flat_factors
           zero_solver factors_flat [[0; 0; 0; 0; 0]] [1 / 100] zero_betas).
  - reflexivity.
  - intros row [<- | []] x Hx. simpl in Hx.
    repeat (destruct Hx as [<- | Hx]; [reflexivity |]). contradiction.
  - reflexivity.
  - reflexivity.
  - apply flat_factors_is_lstsq. intros row [<- | []] x Hx. simpl in Hx.
    repeat (destruct Hx as [<- | Hx]; [reflexivity |]). contradiction.
Defined.

(** X20 (build_portfolio_returns): a missing asset return is left out of
    the sum of weighted returns ([Series.sum] skips [NaN]) while its quantity
    stays in the sum of quantities: with finite quantities of non-zero total
    and returns that are finite or missing, the portfolio return is the sum
    of [return * quantity] over the holdings that have a return, divided by
    the total quantity of all holdings of the group. *)
Theorem build_portfolio_returns_missing_return_keeps_weight :
  forall (returns : list return_row) (positions : list position_row),
    merge_positions returns positions <> [] ->
    exists out,
      build_portfolio_returns returns positions = Ok out /\
      forall p, In p out ->
        let g := group_members returns positions (pf_date p) (pf_fund_id p) in
        (forall rp, In rp g ->
           isfinite (quantity (snd rp)) = true /\
           (r_return (fst rp) = NaN \/ isfinite (r_return (fst rp)) = true)) ->
        Rsum (map snd (member_values g)) <> 0 ->
        portfolio_return p
        = Fin (Rsum (map (fun x => fst x * snd x) (member_values (with_return g)))
               / Rsum (map snd (member_values g))).
Proof.
  intros returns positions Hne. eexists.
  split; [apply build_portfolio_returns_eq, Hne |].
  intros p Hp. apply in_map_iff in Hp as ([d f] & <- & _).
  cbn [pf_date pf_fund_id portfolio_return fst snd].
  unfold quantity_weighted_average. cbv zeta.
  set (g := group_members returns positions d f). intros Hg Htotal.
  assert (Hw : weighted_sum g
               = Fin (Rsum (map (fun x => fst x * snd x)
                                (member_values (with_return g))))).
  { unfold weighted_sum.
    rewrite (series_sum_filter
               (fun rp => mul (r_return (fst rp)) (quantity (snd rp)))
               (fun rp => negb (isnan (r_return (fst rp)))) g).
    - apply (finite_group_sums (with_return g)).
      unfold finite_group, member_values, with_return. rewrite map_map.
      apply map_ext_in. intros rp Hrp. apply filter_In in Hrp as [Hin Hk].
      destruct (Hg rp Hin) as [Hq [Hr | Hr]].
      + rewrite Hr in Hk. discriminate.
      + cbn [fst snd].
        rewrite <- (isfinite_fin_value _ Hr), <- (isfinite_fin_value _ Hq).
        reflexivity.
    - intros rp Hin Hk. apply negb_false_iff in Hk. left.
      destruct (r_return (fst rp)); try discriminate. reflexivity. }
  assert (Hq : quantity_sum g = Fin (Rsum (map snd (member_values g)))).
  { unfold quantity_sum, member_values. rewrite <- series_sum_Fin, !map_map.
    f_equal. apply map_ext_in. intros rp Hin. cbn [snd].
    apply isfinite_fin_value, (Hg rp Hin). }
  rewrite Hw, Hq. simpl. rewrite Reqb_false by exact Htotal. reflexivity.
Qed.

(** Fund 1 holds 100 of A and 300 of B, and the return of B is missing: the
    portfolio return is [0.02 * 100 / 400]. *)
Lemma build_portfolio_returns_missing_return_keeps_weight_witness :
  exists out,
    build_portfolio_returns returns_one_missing positions_two_assets = Ok out /\
    forall p, In p out -> portfolio_return p = Fin (2 / 100 * 100 / 400).
Proof.
  destruct (build_portfolio_returns_missing_return_keeps_weight
              returns_one_missing positions_two_assets) as (out & Hrun & Hv).
  - cbn. discriminate.
  - exists out. split; [exact Hrun |]. intros p Hp.
    pose proof (Hv p Hp) as Hp'. clear Hv.
    assert (Hout : exists x, out = [ {| pf_date := "2020-01-02"%string;
                                        pf_fund_id := 1;
                                        portfolio_return := x |} ]).
    { unfold build_portfolio_returns in Hrun. cbn in Hrun.
      injection Hrun as <-. eexists. reflexivity. }
    destruct Hout as [x ->]. destruct Hp as [<- | []].
    cbn in Hp'. cbn [portfolio_return]. rewrite Hp'.
    + f_equal. field.
    + intros rp [<- | [<- | []]]; cbn; auto.
    + lra.
Defined.

(** ** Orchestrator: failures, figures, the regression sample *)

Section OrchestratorRuns.
Variable lstsq : solver.
Variable portfolio_returns : list portfolio_row.
Variable factor_df : list factor_row.

Let overlap (fund : fund_row) : bool :=
  shares_a_date portfolio_returns factor_df (fund_id fund).

Lemma main_loop_app (l1 l2 : list fund_row) (st : run_state) :
  main_loop lstsq portfolio_returns factor_df (l1 ++ l2) st
  = bind (main_loop lstsq portfolio_returns factor_df l1 st)
         (main_loop lstsq portfolio_returns factor_df l2).
Proof.
  revert st. induction l1 as [| fund l1 IH]; intros st; [reflexivity |].
  cbn [app main_loop].
  destruct (process_fund lstsq portfolio_returns factor_df st fund) as [st' | e];
    [apply IH | reflexivity].
Qed.

Lemma process_fund_raises (st : run_state) (fund : fund_row) (e : exn) :
  overlap fund = true ->
  lstsq (fund_design portfolio_returns factor_df (fund_id fund))
        (fund_excess portfolio_returns factor_df (fund_id fund)) = Raise e ->
  process_fund lstsq portfolio_returns factor_df st fund = Raise e.
Proof.
  intros Hov Hsolve.
  assert (Hne : fund_merged portfolio_returns factor_df (fund_id fund) <> []).
  { intros H. apply fund_merged_nil in H. unfold overlap in Hov. congruence. }
  unfold process_fund. unfold fund_design, fund_excess, fund_merged, fund_rows in *.
  destruct (merge_factors _ factor_df) as [| m ms] eqn:Hm; [congruence |].
  unfold estimate_factor_exposures. rewrite Hsolve. reflexivity.
Qed.

(** The figures saved in a turn of the loop that writes a summary row. *)
Lemma process_fund_saved (st : run_state) (fund : fund_row) (betas : vector) :
  overlap fund = true ->
  lstsq (fund_design portfolio_returns factor_df (fund_id fund))
        (fund_excess portfolio_returns factor_df (fund_id fund)) = Ok betas ->
  length betas = 5%nat ->
  exists st',
    process_fund lstsq portfolio_returns factor_df st fund = Ok st' /\
    length (summary_records st') = S (length (summary_records st)) /\
    map fst (saved st') = map fst (saved st) ++ fund_images (fund_id fund) /\
    In (fund_id fund, CumulativeReturnsPng,
        plot_cumulative_returns portfolio_returns (fund_id fund)) (saved st').
Proof.
  intros Hov Hsolve Hlen.
  assert (Hne : fund_merged portfolio_returns factor_df (fund_id fund) <> []).
  { intros H. apply fund_merged_nil in H. unfold overlap in Hov. congruence. }
  assert (Hret : fund_rows portfolio_returns (fund_id fund) <> []).
  { intros H. apply Hne. unfold fund_merged. rewrite H. reflexivity. }
  destruct (np_quantile_ok
              (map portfolio_return (fund_rows portfolio_returns (fund_id fund)))
              (1 + - (95 / 100))) as [thr Hthr].
  { destruct (fund_rows portfolio_returns (fund_id fund));
      [congruence | discriminate]. }
  { lra. }
  pose proof (compute_var_es_unfold _ default_confidence thr Hthr) as Hvar.
  destruct betas as [| b0 [| b1 [| b2 [| b3 [| b4 [| ? ?]]]]]]; try discriminate.
  unfold process_fund. unfold fund_design, fund_excess, fund_merged, fund_rows in *.
  destruct (merge_factors _ factor_df) as [| m ms] eqn:Hm; [congruence |].
  unfold estimate_factor_exposures. rewrite Hsolve. cbn [bind]. rewrite Hvar.
  cbn [bind getitem nth_error].
  eexists. split; [reflexivity |]. cbn [summary_records saved].
  split; [rewrite length_app; simpl; lia |]. split.
  - rewrite map_app. reflexivity.
  - apply in_or_app. right. left. reflexivity.
Qed.

Lemma main_loop_saved (funds_df : list fund_row) :
  solver_succeeds lstsq portfolio_returns factor_df funds_df ->
  forall st0,
  exists st,
    main_loop lstsq portfolio_returns factor_df funds_df st0 = Ok st /\
    length (summary_records st)
    = (length (summary_records st0) + length (filter overlap funds_df))%nat /\
    map fst (saved st)
    = map fst (saved st0)
      ++ flat_map (fun f => fund_images (fund_id f)) (filter overlap funds_df) /\
    (forall fund, In fund funds_df -> overlap fund = true ->
       In (fund_id fund, CumulativeReturnsPng,
           plot_cumulative_returns portfolio_returns (fund_id fund)) (saved st)) /\
    incl (saved st0) (saved st).
Proof.
  induction funds_df as [| fund rest IH]; intros Hsolve st0.
  - exists st0. cbn. rewrite Nat.add_0_r, app_nil_r.
    split; [reflexivity |]. split; [reflexivity |]. split; [reflexivity |].
    split; [intros fund [] | apply incl_refl].
  - assert (Hrest : solver_succeeds lstsq portfolio_returns factor_df rest).
    { intros f Hf. apply Hsolve. right. exact Hf. }
    cbn [main_loop filter]. destruct (overlap fund) eqn:Hov.
    + destruct (Hsolve fund (or_introl eq_refl) Hov) as (betas & Hb & Hlen).
      destruct (process_fund_saved st0 fund betas Hov Hb Hlen)
        as (st1 & Hrun & Hrec & Hsaved & Hcum).
      rewrite Hrun. cbn [bind].
      destruct (IH Hrest st1) as (st & Hloop & Hrecs & Himgs & Hfigs & Hincl).
      exists st. split; [exact Hloop |]. split; [| split; [| split]].
      * rewrite Hrecs, Hrec. simpl. lia.
      * rewrite Himgs, Hsaved. cbn [flat_map]. rewrite <- !app_assoc. reflexivity.
      * intros f [<- | Hf] Hf'; [apply Hincl, Hcum | apply Hfigs; assumption].
      * intros x Hx. apply Hincl.
        assert (Hfst : incl (map fst (saved st0)) (map fst (saved st1)))
          by (rewrite Hsaved; apply incl_appl, incl_refl).
        clear - Hrun Hx Hov Hb Hlen.
        unfold process_fund in Hrun.
        destruct (merge_factors _ factor_df); [inversion Hrun; subst; exact Hx |].
        destruct (estimate_factor_exposures _ _ _) as [[bs al] | ?];
          [| discriminate].
        cbn [bind] in Hrun.
        destruct (compute_var_es _ _) as [[v es] | ?]; [| discriminate].
        cbn [bind] in Hrun.
        repeat (match type of Hrun with
                | context [getitem ?v ?i] =>
                    destruct (getitem v i); [| discriminate]; cbn [bind] in Hrun
                end).
        inversion Hrun; subst. cbn [saved]. apply in_or_app. left. exact Hx.
    + rewrite (process_fund_skip lstsq portfolio_returns factor_df st0 fund Hov).
      cbn [bind].
      destruct (IH Hrest {| summary_records := summary_records st0;
                            stdout := stdout st0 ++ [NoOverlappingDates (fund_id fund)];
                            saved := saved st0 |})
        as (st & Hloop & Hrecs & Himgs & Hfigs & Hincl).
      exists st. cbn [summary_records saved] in *.
      split; [exact Hloop |]. split; [exact Hrecs |]. split; [exact Himgs |].
      split; [| exact Hincl].
      intros f [<- | Hf] Hf'; [congruence | apply Hfigs; assumption].
Qed.
End OrchestratorRuns.





Lemma filter_date_unique (d : string) (factor_df : list factor_row) :
  NoDup (map f_date factor_df) ->
  (length (filter (fun f => String.eqb d (f_date f)) factor_df) <= 1)%nat.
Proof.
  induction factor_df as [| f fd IH]; intros Hnd; [simpl; lia |].
  inversion Hnd as [| x l Hnotin Hnd']; subst. cbn [filter].
  destruct (String.eqb d (f_date f)) eqn:Hd; [| apply IH, Hnd'].
  apply String.eqb_eq in Hd. subst d.
  assert (Hnil : filter (fun g => String.eqb (f_date f) (f_date g)) fd = []).
  { apply filter_nil_existsb. destruct (existsb _ fd) eqn:Hex; [| reflexivity].
    apply existsb_exists in Hex as (g & Hg & Heq). apply String.eqb_eq in Heq.
    exfalso. apply Hnotin. rewrite Heq. apply in_map, Hg. }
  rewrite Hnil. simpl. lia.
Qed.

(** X23 (main, the merge of a fund's returns with the factor table): the
    inner merge pairs rows of equal date only; when no date occurs twice in
    the factor table, the regression sample has exactly one observation for
    each portfolio-return row whose date the factor table has, in the order
    of the portfolio returns, so it is never longer than the fund's
    returns. *)
Theorem merge_factors_unique_dates :
  forall (fund_ret : list portfolio_row) (factor_df : list factor_row),
    NoDup (map f_date factor_df) ->
    map fst (merge_factors fund_ret factor_df)
    = filter (fun p => existsb (fun f => String.eqb (pf_date p) (f_date f))
                               factor_df)
             fund_ret /\
    (forall p f, In (p, f) (merge_factors fund_ret factor_df) ->
       pf_date p = f_date f /\ In f factor_df) /\
    (length (merge_factors fund_ret factor_df) <= length fund_ret)%nat.
Proof.
  intros fr fd Hnd.
  assert (Hfst : map fst (merge_factors fr fd)
                 = filter (fun p => existsb (fun f => String.eqb (pf_date p) (f_date f))
                                            fd) fr).
  { unfold merge_factors. induction fr as [| p ps IH]; [reflexivity |].
    cbn [flat_map filter]. rewrite map_app, IH, map_map. cbn [fst].
    pose proof (filter_date_unique (pf_date p) fd Hnd) as Hlen.
    destruct (existsb _ fd) eqn:Hex.
    - destruct (filter (fun f => String.eqb (pf_date p) (f_date f)) fd)
        as [| f [| g l]] eqn:Hf.
      + apply filter_nil_existsb in Hf. congruence.
      + reflexivity.
      + simpl in Hlen. lia.
    - apply filter_nil_existsb in Hex. rewrite Hex. reflexivity. }
  split; [exact Hfst |]. split.
  - intros p f Hin. unfold merge_factors in Hin.
    apply in_flat_map in Hin as (q & _ & Hq).
    apply in_map_iff in Hq as (g & Heq & Hg). injection Heq as -> ->.
    apply filter_In in Hg as [Hg Hd]. apply String.eqb_eq in Hd. tauto.
  - rewrite <- (length_map fst), Hfst. apply filter_length_le.
Qed.

(** Fund 1 has one return, on the only date of the factor table. *)
Lemma merge_factors_unique_dates_witness :
  map fst (merge_factors (fund_rows portfolio_pair 1) factors_one_day)
  = fund_rows portfolio_pair 1.
Proof.
  destruct (merge_factors_unique_dates (fund_rows portfolio_pair 1) factors_one_day)
    as [Hfst _].
  - repeat constructor. intros [].
  - exact Hfst.
Defined.

(** ** Report Renderer: missing returns, the marker of the histogram *)

Lemma date_le_trans (p q r : portfolio_row) :
  date_le p q -> date_le q r -> date_le p r.
Proof.
  unfold date_le. intros Hpq Hqr.
  destruct (String.compare (pf_date p) (pf_date q)) eqn:H1; [| | congruence].
  - apply string_compare_eq in H1. rewrite H1. exact Hqr.
  - destruct (String.compare (pf_date q) (pf_date r)) eqn:H2; [| | congruence].
    + apply string_compare_eq in H2. rewrite <- H2, H1. discriminate.
    + rewrite (string_compare_trans _ _ _ H1 H2). discriminate.
Qed.

Lemma insert_by_filter (P : portfolio_row -> bool) (x : portfolio_row)
    (l : list portfolio_row) :
  Sorted date_le l ->
  filter P (insert_by String.compare pf_date x l)
  = if P x then insert_by String.compare pf_date x (filter P l) else filter P l.
Proof.
  intros Hs. apply Sorted_StronglySorted in Hs;
    [| intros p q r; apply date_le_trans].
  induction Hs as [| y l Hs IH Hall]; [simpl; destruct (P x); reflexivity |].
  cbn [insert_by].
  destruct (String.compare (pf_date x) (pf_date y)) eqn:Hc.
  - cbn [filter]. destruct (P x) eqn:Hx; [| reflexivity].
    destruct (P y) eqn:Hy.
    + cbn [insert_by]. rewrite Hc. reflexivity.
    + destruct (filter P l) as [| z l'] eqn:Hf; [reflexivity |].
      cbn [insert_by].
      assert (Hz : date_le x z).
      { apply date_le_trans with y; [unfold date_le; congruence |].
        rewrite Forall_forall in Hall. apply Hall.
        apply (proj1 (filter_In P z l)). rewrite Hf. left. reflexivity. }
      unfold date_le in Hz.
      destruct (String.compare (pf_date x) (pf_date z)); congruence.
  - cbn [filter]. destruct (P x) eqn:Hx; [| reflexivity].
    destruct (P y) eqn:Hy.
    + cbn [insert_by]. rewrite Hc. reflexivity.
    + destruct (filter P l) as [| z l'] eqn:Hf; [reflexivity |].
      cbn [insert_by].
      assert (Hz : date_le x z).
      { apply date_le_trans with y; [unfold date_le; congruence |].
        rewrite Forall_forall in Hall. apply Hall.
        apply (proj1 (filter_In P z l)). rewrite Hf. left. reflexivity. }
      unfold date_le in Hz.
      destruct (String.compare (pf_date x) (pf_date z)); congruence.
  - cbn [filter]. rewrite IH. destruct (P y) eqn:Hy.
    + destruct (P x); [| reflexivity]. cbn [insert_by]. rewrite Hc. reflexivity.
    + reflexivity.
Qed.

Lemma sort_by_filter (P : portfolio_row -> bool) (l : list portfolio_row) :
  filter P (sort_by String.compare pf_date l)
  = sort_by String.compare pf_date (filter P l).
Proof.
  induction l as [| x l IH]; [reflexivity |].
  unfold sort_by in *. cbn [fold_right filter].
  rewrite insert_by_filter by apply sort_by_sorted_dates.
  rewrite IH. destruct (P x); reflexivity.
Qed.

(** The running sum passes over a missing return: the points drawn are those
    of the rows with a return, and the dates without a point are those of
    the rows without one. *)
Lemma cumsum_passes_over_missing (l : list portfolio_row) :
  (forall p, In p l ->
     portfolio_return p = NaN \/ isfinite (portfolio_return p) = true) ->
  forall a : R,
    let curve := fun rows : list portfolio_row =>
      combine (map pf_date rows)
        (map (fun s => sub (exp s) (Fin 1))
           (map2 (fun x s => if isnan x then NaN else s)
              (map portfolio_return rows)
              (np_cumsum_from (Fin a)
                 (map (fun x => if isnan x then Fin 0 else x)
                      (map portfolio_return rows))))) in
    filter drawn (curve l) = curve (filter known l) /\
    map fst (filter (fun pt => negb (drawn pt)) (curve l))
    = map pf_date (filter (fun p => negb (known p)) l).
Proof.
  intros Hl a curve. subst curve. cbv beta. revert a.
  induction l as [| p l IH]; intros a; [split; reflexivity |].
  assert (Hl' : forall q, In q l ->
            portfolio_return q = NaN \/ isfinite (portfolio_return q) = true).
  { intros q Hq. apply Hl. right. exact Hq. }
  specialize (IH Hl').
  unfold map2, known, drawn in *. cbn [map np_cumsum_from combine filter fst snd].
  destruct (Hl p (or_introl eq_refl)) as [Hp | Hp].
  - rewrite Hp. cbn [isnan add exp sub neg negb snd fst map filter].
    rewrite Rplus_0_r. destruct (IH a) as [IH1 IH2].
    split; [exact IH1 | f_equal; exact IH2].
  - destruct (portfolio_return p) as [r | | |] eqn:Hr; try discriminate.
    cbn [isnan add exp sub neg negb snd fst map combine np_cumsum_from filter].
    rewrite Hr. cbn [isnan add].
    destruct (IH (a + r)) as [IH1 IH2].
    split; [f_equal; exact IH1 | exact IH2].
Qed.

(** X24 (plot_cumulative_returns): a missing portfolio return (pandas skips
    [NaN] in [cumsum]) leaves a gap at its own date and nothing else: for a
    fund with one row per date whose returns are finite or missing, the
    points of the curve that are drawn are the whole curve of the table
    without the rows of missing return, and the dates without a point are
    the dates of those rows. *)
Theorem plot_cumulative_returns_passes_over_missing_returns :
  forall (portfolio_returns : list portfolio_row) (fund : Z),
    NoDup (map pf_date (fund_rows portfolio_returns fund)) ->
    (forall p, In p (fund_rows portfolio_returns fund) ->
       portfolio_return p = NaN \/ isfinite (portfolio_return p) = true) ->
    filter drawn (curve_points (plot_cumulative_returns portfolio_returns fund))
    = curve_points (plot_cumulative_returns (filter known portfolio_returns) fund) /\
    map fst (filter (fun pt => negb (drawn pt))
               (curve_points (plot_cumulative_returns portfolio_returns fund)))
    = map pf_date
        (filter (fun p => negb (known p))
           (sort_by String.compare pf_date (fund_rows portfolio_returns fund))).
Proof.
  intros pr fund _ Hrows.
  unfold plot_cumulative_returns, curve_points, series_cumsum. cbv zeta.
  assert (Hfund : filter (fun p => Z.eqb (pf_fund_id p) fund) (filter known pr)
                  = filter known (filter (fun p => Z.eqb (pf_fund_id p) fund) pr)).
  { rewrite !filter_filter. apply filter_ext. intros p. apply andb_comm. }
  rewrite Hfund, <- (sort_by_filter known). fold (fund_rows pr fund).
  assert (Hsorted : forall p,
            In p (sort_by String.compare pf_date (fund_rows pr fund)) ->
            portfolio_return p = NaN \/ isfinite (portfolio_return p) = true).
  { intros p Hp. apply Hrows.
    eapply Permutation_in; [apply sort_by_perm | exact Hp]. }
  pose proof (cumsum_passes_over_missing _ Hsorted 0) as Hcurve.
  cbv beta zeta in Hcurve. exact Hcurve.
Qed.

(** Of three days the second has no return: two points are drawn, both at a
    cumulative return of [exp 0 - 1], and the gap is on the second day. *)
Lemma plot_cumulative_returns_passes_over_missing_returns_witness :
  filter drawn (curve_points (plot_cumulative_returns returns_with_gap 1))
  = curve_points (plot_cumulative_returns (filter known returns_with_gap) 1) /\
  map fst (filter (fun pt => negb (drawn pt))
             (curve_points (plot_cumulative_returns returns_with_gap 1)))
  = map pf_date
      (filter (fun p => negb (known p))
         (sort_by String.compare pf_date (fund_rows returns_with_gap 1))).
Proof.
  apply plot_cumulative_returns_passes_over_missing_returns.
  - repeat constructor; simpl; intuition discriminate.
  - intros p Hp. simpl in Hp.
    destruct Hp as [<- | [<- | [<- | []]]]; simpl; auto.
Defined.

Lemma neg_involutive (a : float64) : neg (neg a) = a.
Proof.
  destruct a; simpl; try reflexivity. rewrite Ropp_involutive. reflexivity.
Qed.


